(** * srt.ParallelSort: a fork-join merge sort over Go slices

    Shallow embedding of [src/sort/srt.go] (package [srt]): [SortBy],
    [ParallelSort], its private helper [merge], and [IsSorted].

    A Go slice [[]T] is a [list T]; Go's [int] indices are integers of [Z]
    (every index the code computes lies between [0] and [len(data)], so
    64-bit wrap-around never happens).  An indexing expression outside
    [0 <= i < len] is a run-time panic, which the embedding makes explicit. *)

From Stdlib Require Import ZArith Lia.
From Stdlib Require Floats.PrimFloat.
From stdpp Require Import base tactics option list sorting.
From Equations Require Import Equations.

Local Open Scope Z_scope.

(* The unfolding equation of [ParallelSort] is proved below by hand, without
   function extensionality. *)
Unset Equations With Funext.
Set Warnings "-solve_obligation_error".

(** ** Outcomes of running Go code *)

(** A call either returns, or panics on an index out of range, or panics
    on the comparison of two values that cannot be compared, or is still
    looping when its iteration budget runs out. *)
Inductive exec (A : Type) : Type :=
| Done (a : A)
| IndexPanic
| ComparePanic
| Spin.
Arguments Done {A} a.
Arguments IndexPanic {A}.
Arguments ComparePanic {A}.
Arguments Spin {A}.

#[global] Instance exec_ret : MRet exec := fun _ a => Done a.
#[global] Instance exec_bind : MBind exec := fun _ _ f m =>
  match m with
  | Done a => f a
  | IndexPanic => IndexPanic
  | ComparePanic => ComparePanic
  | Spin => Spin
  end.

(** [go func() { defer wg.Done(); spawned }(); current; wg.Wait(); rest]:
    both computations run to completion before [rest] sees their results,
    and a panic in either goroutine brings the program down. *)
Definition fork_join {A B C} (spawned : exec A) (current : exec B)
    (rest : A → B → exec C) : exec C :=
  a ← spawned; b ← current; rest a b.

(** ** Slices *)

Definition len {T} (s : list T) : Z := Z.of_nat (length s).

(** [s[i]] as an operand. *)
Definition load {T} (s : list T) (i : Z) : exec T :=
  if bool_decide (0 ≤ i < len s) then
    match s !! Z.to_nat i with
    | Some x => Done x
    | None => IndexPanic
    end
  else IndexPanic.

(** [s[i] = x]. *)
Definition store {T} (s : list T) (i : Z) (x : T) : exec (list T) :=
  if bool_decide (0 ≤ i < len s) then Done (<[Z.to_nat i := x]> s)
  else IndexPanic.

(** ** merge (srt.go, lines 66-87) *)

Section Merge.
Context {T : Type} (less : T → T → bool).

(** The loop state: the slice being overwritten and the three cursors. *)
Record mstate := MState { ms_data : list T; ms_i : Z; ms_j : Z; ms_k : Z }.

(** One pass through the body of the first loop, lines 72-79. *)
Definition merge_body (temp : list T) (st : mstate) : exec mstate :=
  let '(MState data i j k) := st in
  ti ← load temp i;
  tj ← load temp j;
  if less ti tj then
    data' ← store data k ti;
    Done (MState data' (i + 1) j (k + 1))
  else
    data' ← store data k tj;
    Done (MState data' i (j + 1) (k + 1)).

(** [for i < mid && j < len(data) { ... }], lines 71-80. *)
Fixpoint merge_loop (budget : nat) (temp : list T) (mid : Z) (st : mstate)
  : exec mstate :=
  match budget with
  | O => Spin
  | S budget =>
      if bool_decide (ms_i st < mid) && bool_decide (ms_j st < len (ms_data st))
      then st' ← merge_body temp st; merge_loop budget temp mid st'
      else Done st
  end.

(** [for i < mid { data[k] = temp[i]; i++; k++ }], lines 82-86. *)
Fixpoint drain_left (budget : nat) (temp : list T) (mid : Z) (st : mstate)
  : exec mstate :=
  match budget with
  | O => Spin
  | S budget =>
      let '(MState data i j k) := st in
      if bool_decide (i < mid) then
        ti ← load temp i;
        data' ← store data k ti;
        drain_left budget temp mid (MState data' (i + 1) j (k + 1))
      else Done st
  end.

(** [temp := make([]T, len(data)); copy(temp, data)] yields a private copy
    of the contents, which for an immutable list is the list itself.  Each
    loop gets a budget of [len(data)+1] condition checks. *)
Definition merge (data : list T) (mid : Z) : exec (list T) :=
  let temp := data in
  st ← merge_loop (S (length data)) temp mid (MState data 0 mid 0);
  st' ← drain_left (S (length data)) temp mid st;
  Done (ms_data st').

(** The textbook variant, which also copies what is left of the right
    side: [for j < len(data) { data[k] = temp[j]; j++; k++ }]. *)
Fixpoint drain_right (budget : nat) (temp : list T) (st : mstate)
  : exec mstate :=
  match budget with
  | O => Spin
  | S budget =>
      let '(MState data i j k) := st in
      if bool_decide (j < len data) then
        tj ← load temp j;
        data' ← store data k tj;
        drain_right budget temp (MState data' i (j + 1) (k + 1))
      else Done st
  end.

Definition merge_reference (data : list T) (mid : Z) : exec (list T) :=
  let temp := data in
  st ← merge_loop (S (length data)) temp mid (MState data 0 mid 0);
  st' ← drain_left (S (length data)) temp mid st;
  st'' ← drain_right (S (length data)) temp st';
  Done (ms_data st'').

(** What the loops compute, read as a function of the two halves. *)
Fixpoint merge_lists (l r : list T) : list T :=
  match l with
  | [] => r
  | x :: l' =>
      (fix into (r : list T) : list T :=
         match r with
         | [] => l
         | y :: r' => if less x y then x :: merge_lists l' r else y :: into r'
         end) r
  end.

(** *** The loop invariant *)

(** [temp[a:b]]. *)
Definition span (temp : list T) (a b : Z) : list T :=
  take (Z.to_nat (b - a)) (drop (Z.to_nat a) temp).

(** What holds of the cursors and of the slice each time a loop condition
    is evaluated. *)
Record merge_inv (temp : list T) (mid : Z) (st : mstate) : Prop := {
  inv_i : 0 ≤ ms_i st ≤ mid;
  inv_j : mid ≤ ms_j st ≤ len temp;
  inv_k : ms_k st = ms_i st + (ms_j st - mid);
  inv_len : length (ms_data st) = length temp;
  inv_tail :
    drop (Z.to_nat (ms_k st)) (ms_data st) = drop (Z.to_nat (ms_k st)) temp
}.

(** The output the loops are heading for: what has been written, followed
    by the merge of what the two cursors have not consumed. *)
Definition merge_view (temp : list T) (mid : Z) (st : mstate) : list T :=
  take (Z.to_nat (ms_k st)) (ms_data st) ++
  merge_lists (span temp (ms_i st) mid) (span temp (ms_j st) (len temp)).

(** Condition checks still to come, at most. *)
Definition remaining (temp : list T) (mid : Z) (st : mstate) : nat :=
  (Z.to_nat (mid - ms_i st) + Z.to_nat (len temp - ms_j st))%nat.

End Merge.
Arguments mstate : clear implicits.


(** ** SortBy, ParallelSort, IsSorted (srt.go, lines 11-15, 41-63, 90-97) *)

Section Sort.
Context {T : Type}.

(** [sort.Slice] belongs to Go's standard library, not to this package: it is
    a parameter of the embedding.  [sort_Slice data less] is the contents of
    the slice after [sort.Slice(data, func(i, j) { less(data[i], data[j]) })]
    has returned. *)
Variable sort_Slice : list T → (T → T → bool) → list T.

Variable less : T → T → bool.

Definition SortBy (data : list T) : list T := sort_Slice data less.

(** The goroutine sorts [data[:mid]], the calling goroutine sorts
    [data[mid:]]; the two sub-slices share no element of the backing array,
    so after [wg.Wait()] the array holds the two results side by side. *)
Equations? ParallelSort (data : list T) (parallelism : Z) : exec (list T)
  by wf (length data) lt :=
ParallelSort data parallelism with decide (len data < 2) := {
  | left _ => Done data
  | right _ with decide (parallelism ≤ 1 ∨ len data < 1000) := {
    | left _ => Done (SortBy data)
    | right _ =>
        let mid := len data `quot` 2 in
        fork_join
          (ParallelSort (take (Z.to_nat mid) data) (parallelism `quot` 2))
          (ParallelSort (drop (Z.to_nat mid) data) (parallelism `quot` 2))
          (λ lo hi, merge less (lo ++ hi) mid) } }.
Proof.
  all: subst mid; unfold len in *.
  all: assert (0 < Z.of_nat (length data) `quot` 2)
    by (apply Z.quot_str_pos; lia).
  all: assert (Z.of_nat (length data) `quot` 2 < Z.of_nat (length data))
    by (apply Z.quot_lt; lia).
  all: rewrite ?length_take, ?length_drop; lia.
Qed.
Next Obligation.
  unfold ParallelSort at 1. unfold_recursor.
  - destruct (decide _); simpl; [reflexivity|].
    destruct (decide _); simpl; [reflexivity|].
    match goal with E : ∀ y h, _ = _ |- _ => rewrite !E end. reflexivity.
  - unfold ParallelSort_unfold.
    destruct (decide _); simpl; [reflexivity|].
    destruct (decide _); reflexivity.
Defined.

(** [IsSorted]: no position [i] with [less(data[i+1], data[i])]. *)
Fixpoint IsSorted (data : list T) : bool :=
  match data with
  | x :: (y :: _) as rest => if less y x then false else IsSorted rest
  | _ => true
  end.

(** The recursive calls of lines 56 and 58, as a relation between the
    arguments of the callee and those of its caller. *)
Inductive recursive_call : list T * Z → list T * Z → Prop :=
| call_spawned data parallelism :
    ¬ len data < 2 →
    ¬ (parallelism ≤ 1 ∨ len data < 1000) →
    recursive_call
      (take (Z.to_nat (len data `quot` 2)) data, parallelism `quot` 2)
      (data, parallelism)
| call_current data parallelism :
    ¬ len data < 2 →
    ¬ (parallelism ≤ 1 ∨ len data < 1000) →
    recursive_call
      (drop (Z.to_nat (len data `quot` 2)) data, parallelism `quot` 2)
      (data, parallelism).

(** [nested n callee caller]: [callee] sits [n] recursive calls below
    [caller]. *)
Inductive nested : nat → list T * Z → list T * Z → Prop :=
| nested_here a : nested 0 a a
| nested_below n a b c :
    recursive_call a b → nested n b c → nested (S n) a c.

End Sort.

(** ** Comparators *)

Section Comparators.
Context {T : Type} (less : T → T → bool).

(** A consistent comparator: what [sort.Interface] asks of [Less] (a
    transitive ordering in which "not less" is transitive too), together
    with irreflexivity.  This is a strict weak ordering. *)
Record StrictWeakOrder : Prop := {
  swo_irreflexive : ∀ a, less a a = false;
  swo_transitive : ∀ a b c, less a b = true → less b c = true → less a c = true;
  swo_negatively_transitive :
    ∀ a b c, less a b = false → less b c = false → less a c = false
}.

(** [a] does not sort after [b]. *)
Definition not_after (a b : T) : Prop := less b a = false.

(** Neither sorts before the other: equal under the ordering. *)
Definition tied (a b : T) : Prop := less a b = false ∧ less b a = false.

(** Insertion in front of the first element that does not sort before [x]. *)
Fixpoint insert_before (x : T) (l : list T) : list T :=
  match l with
  | [] => [x]
  | y :: l' => if less y x then y :: insert_before x l' else x :: l
  end.

End Comparators.

(** A sorting procedure that meets the contract assumed of [sort.Slice]:
    insertion sort.  Like Go's pattern-defeating quicksort, it moves nothing
    when the slice is already in order. *)
Definition insertion_Slice {T} (data : list T) (less : T → T → bool) : list T :=
  foldr (insert_before less) [] data.

(** Records ordered by their first component only. *)
Definition by_key (a b : Z * Z) : bool := a.1 <? b.1.

(** A thousand records with the same key, in order whatever their second
    components, and the same records with the two halves exchanged. *)
Definition tied_run : list (Z * Z) :=
  replicate 500 (0, 0) ++ replicate 500 (0, 1).
Definition tied_run_swapped : list (Z * Z) :=
  replicate 500 (0, 1) ++ replicate 500 (0, 0).

(** ** SortByKey, SortByKeyOrdered (srt.go, lines 17-37) *)

(** [sort.Slice(data, func(i, j) { lessKey(key(data[i]), key(data[j])) })]. *)
Definition SortByKey {T K} (sort_Slice : list T → (T → T → bool) → list T)
    (data : list T) (key : T → K) (lessKey : K → K → bool) : list T :=
  sort_Slice data (λ a b, lessKey (key a) (key b)).

(** The constraint [Ordered]: a type with the operator [<]. *)
Class Ordered (K : Type) := ordered_lt : K → K → bool.

(** The integer kinds of [Ordered], without their bounds. *)
#[global] Instance Ordered_int : Ordered Z := Z.ltb.

(** [sort.Slice(data, func(i, j) { key(data[i]) < key(data[j]) })]. *)
Definition SortByKeyOrdered {T K} `{Ordered K}
    (sort_Slice : list T → (T → T → bool) → list T)
    (data : list T) (key : T → K) : list T :=
  sort_Slice data (λ a b, ordered_lt (key a) (key b)).

(** ** BinarySearch (srt.go, lines 99-114) *)

Section Search.
Context {T : Type} (less : T → T → bool).

(** [for low <= high { ... }; return low, false], lines 103-113.  Both
    tests of a pass read the same slot [data[mid]] of a slice that nothing
    writes to. *)
Fixpoint search_loop (budget : nat) (data : list T) (target : T)
    (low high : Z) : exec (Z * bool) :=
  match budget with
  | O => Spin
  | S budget =>
      if bool_decide (low ≤ high) then
        let mid := low + (high - low) `quot` 2 in
        x ← load data mid;
        if less x target then search_loop budget data target (mid + 1) high
        else if less target x then search_loop budget data target low (mid - 1)
        else Done (mid, true)
      else Done (low, false)
  end.

Definition BinarySearch (data : list T) (target : T) : exec (Z * bool) :=
  search_loop (S (length data)) data target 0 (len data - 1).

End Search.

(** ** Deduplicate (srt.go, lines 116-134) *)

Section Dedup.
Context {T : Type}.

(** [x != y] at the element type [T], of which the code knows only that it
    is comparable.  On integers, strings, booleans and pointers it is
    inequality of values.  On a floating-point type a NaN differs from
    every value, itself included, and the two zeros do not differ.  On an
    interface type, which is comparable too, the comparison of two values
    of the same dynamic type panics when that type is not comparable.  So
    the comparison is a parameter: [Some b] when it yields [b], [None] when
    it panics. *)
Variable differs : T → T → option bool.

Definition not_equal (x y : T) : exec bool :=
  match differs x y with
  | Some b => Done b
  | None => ComparePanic
  end.

(** [for i := 1; i < len(data); i++ { ... }], lines 124-131. *)
Fixpoint dedup_loop (budget : nat) (data : list T) (i j : Z)
    : exec (list T * Z) :=
  match budget with
  | O => Spin
  | S budget =>
      if bool_decide (i < len data) then
        x ← load data i;
        y ← load data (i - 1);
        changed ← not_equal x y;
        match changed with
        | true =>
            data' ← (if bool_decide (i ≠ j)
                     then v ← load data i; store data j v
                     else Done data);
            dedup_loop budget data' (i + 1) (j + 1)
        | false => dedup_loop budget data (i + 1) j
        end
      else Done (data, j)
  end.

(** The slice as [Deduplicate] leaves it, and the length it returns. *)
Definition Deduplicate (data : list T) : exec (list T * Z) :=
  if bool_decide (len data < 2) then Done (data, len data)
  else dedup_loop (S (length data)) data 1 1.

End Dedup.

(** [!=] on an element type where it is inequality of values. *)
Definition unequal {T : Type} `{EqDecision T} (x y : T) : bool :=
  bool_decide (x ≠ y).

Definition value_differs {T : Type} `{EqDecision T} (x y : T) : option bool :=
  Some (unequal x y).

(** [!=] on [float64]: the negation of IEEE 754 equality. *)
Definition float64_differs (x y : PrimFloat.float) : option bool :=
  Some (negb (PrimFloat.eqb x y)).

(** Values of the interface type [any] that hold an [int] or a [[]int].
    Two values of different dynamic types differ; two that both hold a
    slice cannot be compared. *)
Inductive any : Type :=
| Int (z : Z)
| Ints (s : list Z).

Definition any_differs (x y : any) : option bool :=
  match x, y with
  | Int a, Int b => Some (unequal a b)
  | Ints _, Ints _ => None
  | _, _ => Some true
  end.

Section RunHeads.
Context {T : Type} (ne : T → T → bool).

(** The elements of [l] that [ne] tells from their predecessor, [prev]
    being the predecessor of the first. *)
Fixpoint changes (prev : T) (l : list T) : list T :=
  match l with
  | [] => []
  | x :: l' => if ne x prev then x :: changes x l' else changes x l'
  end.

(** The first element, and every later element that [ne] tells from the one
    before it: with [unequal], the first element of every run of equal
    elements. *)
Definition run_heads (l : list T) : list T :=
  match l with
  | [] => []
  | x :: l' => x :: changes x l'
  end.

End RunHeads.

(** ** Runs *)

Example merge_ints :
  merge Z.ltb [1; 4; 9; 2; 3; 10] 3 = Done [1; 2; 3; 4; 9; 10].
Proof. reflexivity. Qed.

Example merge_right_exhausted :
  merge Z.ltb [5; 6; 1; 2] 2 = Done [1; 2; 5; 6].
Proof. reflexivity. Qed.

Example merge_mid_beyond : merge Z.ltb [1; 2] 3 = IndexPanic.
Proof. reflexivity. Qed.

Example merge_mid_negative : merge Z.ltb [2; 1] (-1) = Done [2; 1].
Proof. reflexivity. Qed.

Example merge_reference_negative :
  merge_reference Z.ltb [2; 1] (-1) = IndexPanic.
Proof. reflexivity. Qed.

Example ParallelSort_ten :
  ParallelSort insertion_Slice Z.ltb [5; 3; 8; 1; 9; 2; 7; 4; 6; 0] 4 =
    Done [0; 1; 2; 3; 4; 5; 6; 7; 8; 9] ∧
  ParallelSort insertion_Slice Z.ltb [5; 3; 8; 1; 9; 2; 7; 4; 6; 0] 1 =
    Done [0; 1; 2; 3; 4; 5; 6; 7; 8; 9].
Proof. by vm_compute. Qed.

Example ParallelSort_thousand :
  ParallelSort insertion_Slice Z.ltb (reverse (seqZ 0 1000)) 8 =
  Done (seqZ 0 1000).
Proof. by vm_compute. Qed.

Example ParallelSort_negative_budget :
  ParallelSort insertion_Slice Z.ltb [2; 1] (-3) = Done [1; 2].
Proof. by vm_compute. Qed.

Example BinarySearch_found :
  BinarySearch Z.ltb [1; 3; 5; 7] 5 = Done (2, true).
Proof. reflexivity. Qed.

Example BinarySearch_misses :
  BinarySearch Z.ltb [1; 3; 5; 7] 4 = Done (2, false) ∧
  BinarySearch Z.ltb [1; 3; 5; 7] 9 = Done (4, false) ∧
  BinarySearch Z.ltb [] 9 = Done (0, false).
Proof. by vm_compute. Qed.

Example Deduplicate_runs :
  Deduplicate value_differs [1; 1; 2; 3; 3; 3; 4] =
  Done ([1; 2; 3; 4; 3; 3; 4], 4).
Proof. by vm_compute. Qed.

Example Deduplicate_unsorted :
  Deduplicate value_differs [1; 2; 1; 1] = Done ([1; 2; 1; 1], 3).
Proof. by vm_compute. Qed.

(** Every NaN is kept, and of the two zeros the first. *)
Example Deduplicate_floats :
  Deduplicate float64_differs
    [PrimFloat.nan; PrimFloat.nan; PrimFloat.one; PrimFloat.one;
     PrimFloat.zero; PrimFloat.neg_zero] =
  Done ([PrimFloat.nan; PrimFloat.nan; PrimFloat.one; PrimFloat.zero;
         PrimFloat.zero; PrimFloat.neg_zero], 4).
Proof. by vm_compute. Qed.

Example Deduplicate_mixed_interfaces :
  Deduplicate any_differs [Int 1; Ints [1]; Int 1; Int 1] =
  Done ([Int 1; Ints [1]; Int 1; Int 1], 3).
Proof. by vm_compute. Qed.

Example Deduplicate_uncomparable :
  Deduplicate any_differs [Int 1; Ints [1]; Ints [1]] = ComparePanic.
Proof. by vm_compute. Qed.

Example IsSorted_ints :
  IsSorted Z.ltb [1; 2; 2; 3] = true ∧ IsSorted Z.ltb [1; 3; 2] = false.
Proof. by vm_compute. Qed.

(** * Verification *)

(** ** Slice accesses *)

Section SliceFacts.
Context {T : Type}.
Implicit Types (s : list T) (i : Z).

Lemma load_in_range s i x :
  0 ≤ i → s !! Z.to_nat i = Some x → load s i = Done x.
Proof.
  intros Hi Hx. unfold load, len.
  apply lookup_lt_Some in Hx as Hlt.
  rewrite bool_decide_eq_true_2 by lia. by rewrite Hx.
Qed.

Lemma load_exists s i :
  0 ≤ i < len s → ∃ x, s !! Z.to_nat i = Some x ∧ load s i = Done x.
Proof.
  unfold len. intros Hi.
  destruct (lookup_lt_is_Some_2 s (Z.to_nat i)) as [x Hx]; [lia|].
  exists x. split; [done|]. apply load_in_range; [lia|done].
Qed.

Lemma store_in_range s i x :
  0 ≤ i < len s → store s i x = Done (<[Z.to_nat i := x]> s).
Proof. intros Hi. unfold store. by rewrite bool_decide_eq_true_2. Qed.

Lemma load_out_of_range s i : ¬ (0 ≤ i < len s) → load s i = IndexPanic.
Proof. intros Hi. unfold load. by rewrite bool_decide_eq_false_2. Qed.

End SliceFacts.

(** ** The merge loops *)

Ltac exec_simpl :=
  cbn [mbind exec_bind mret exec_ret ms_data ms_i ms_j ms_k].

Section MergeFacts.
Context {T : Type} (less : T → T → bool).
Implicit Types (temp data l r : list T) (st : mstate T) (mid : Z).

Lemma merge_lists_nil_r l : merge_lists less l [] = l.
Proof. by destruct l. Qed.

Lemma merge_lists_cons x l y r :
  merge_lists less (x :: l) (y :: r) =
  if less x y then x :: merge_lists less l (y :: r)
  else y :: merge_lists less (x :: l) r.
Proof. reflexivity. Qed.

Lemma span_cons temp a b x :
  0 ≤ a < b → temp !! Z.to_nat a = Some x →
  span temp a b = x :: span temp (a + 1) b.
Proof.
  intros Hab Hx. unfold span.
  rewrite (drop_S _ _ _ Hx).
  replace (Z.to_nat (b - a)) with (S (Z.to_nat (b - (a + 1)))) by lia.
  replace (Z.to_nat (a + 1)) with (S (Z.to_nat a)) by lia.
  reflexivity.
Qed.

Lemma span_empty temp a : span temp a a = [].
Proof. unfold span. by rewrite Z.sub_diag. Qed.

Lemma span_to_end temp a : span temp a (len temp) = drop (Z.to_nat a) temp.
Proof.
  unfold span, len. apply take_ge. rewrite length_drop. lia.
Qed.

Lemma merge_inv_init data mid :
  0 ≤ mid ≤ len data → merge_inv data mid (MState data 0 mid 0).
Proof. intros Hmid. split; simpl; try done; lia. Qed.

(** Writing [x] at the output position [k] extends the written prefix by
    [x] and leaves everything from [k+1] on as it was. *)
Lemma write_prefix data (k : Z) x :
  0 ≤ k < len data →
  take (Z.to_nat (k + 1)) (<[Z.to_nat k := x]> data) =
  take (Z.to_nat k) data ++ [x].
Proof.
  unfold len. intros Hk.
  replace (Z.to_nat (k + 1)) with (S (Z.to_nat k)) by lia.
  rewrite (take_S_r _ _ x).
  - by rewrite take_insert_ge.
  - apply list_lookup_insert_eq. lia.
Qed.

Lemma write_tail data temp (k : Z) x :
  0 ≤ k →
  drop (Z.to_nat k) data = drop (Z.to_nat k) temp →
  drop (Z.to_nat (k + 1)) (<[Z.to_nat k := x]> data) =
  drop (Z.to_nat (k + 1)) temp.
Proof.
  intros Hk Htail.
  replace (Z.to_nat (k + 1)) with (Z.to_nat k + 1)%nat by lia.
  rewrite drop_insert_lt by lia.
  by rewrite <- !drop_drop, Htail.
Qed.

(** One pass through the loop body: no access is out of range, the
    invariant is kept, exactly one cursor and the output position advance,
    and the output being built is unchanged. *)
Lemma merge_body_step temp mid st :
  merge_inv temp mid st →
  ms_i st < mid → ms_j st < len (ms_data st) →
  ∃ st', merge_body less temp st = Done st' ∧
    merge_inv temp mid st' ∧
    ms_k st' = ms_k st + 1 ∧
    (remaining temp mid st' < remaining temp mid st)%nat ∧
    length (ms_data st') = length (ms_data st) ∧
    merge_view less temp mid st' = merge_view less temp mid st.
Proof.
  intros [Hi Hj Hk Hlen Htail] Hlt Hjlt.
  destruct st as [data i j k]; simpl in *.
  assert (Hlen' : len data = len temp) by (unfold len; congruence).
  destruct (load_exists temp i) as (ti & Hti & Hloadi); [lia|].
  destruct (load_exists temp j) as (tj & Htj & Hloadj); [lia|].
  assert (Hview : merge_view less temp mid (MState data i j k) =
    take (Z.to_nat k) data ++
    (if less ti tj
     then ti :: merge_lists less (span temp (i + 1) mid) (span temp j (len temp))
     else tj :: merge_lists less (span temp i mid) (span temp (j + 1) (len temp)))).
  { unfold merge_view; cbn [ms_data ms_i ms_j ms_k].
    rewrite (span_cons temp i mid ti) by (done || lia).
    rewrite (span_cons temp j (len temp) tj) at 1 by (done || lia).
    rewrite merge_lists_cons.
    rewrite <- (span_cons temp i mid ti) by (done || lia).
    destruct (less ti tj); [|done].
    by rewrite <- (span_cons temp j (len temp) tj) by (done || lia). }
  rewrite Hview. clear Hview.
  unfold remaining, merge_body. rewrite Hloadi, Hloadj. exec_simpl.
  destruct (less ti tj);
    rewrite store_in_range by lia;
    (eexists; split; [reflexivity|]);
    unfold merge_view; exec_simpl;
    (split_and!;
      [ split; cbn [ms_data ms_i ms_j ms_k];
        [ lia | lia | lia | by rewrite length_insert
        | apply write_tail; [lia|done] ]
      | lia | lia | by rewrite length_insert
      | rewrite write_prefix by lia; by rewrite <- app_assoc ]).
Qed.

(** The first loop returns within its budget, with one side used up. *)
Lemma merge_loop_run budget temp mid st :
  merge_inv temp mid st →
  (remaining temp mid st < budget)%nat →
  ∃ st', merge_loop less budget temp mid st = Done st' ∧
    merge_inv temp mid st' ∧
    (ms_i st' = mid ∨ ms_j st' = len temp) ∧
    merge_view less temp mid st' = merge_view less temp mid st.
Proof.
  revert st. induction budget as [|budget IH]; intros st Hinv Hrem; [lia|].
  simpl.
  assert (Hlen : len (ms_data st) = len temp)
    by (unfold len; by rewrite (inv_len _ _ _ Hinv)).
  destruct (decide (ms_i st < mid)) as [Hi|Hi];
    [destruct (decide (ms_j st < len (ms_data st))) as [Hj|Hj]|].
  - rewrite !bool_decide_eq_true_2 by done. simpl.
    destruct (merge_body_step temp mid st Hinv Hi Hj)
      as (st1 & -> & Hinv1 & _ & Hrem1 & _ & Hview1).
    simpl. destruct (IH st1 Hinv1) as (st' & Hrun & ? & ? & Hview); [lia|].
    exists st'. split_and!; try done. by rewrite Hview.
  - rewrite (bool_decide_eq_false_2 _ Hj), andb_false_r.
    exists st. split_and!; try done. right.
    pose proof (inv_j _ _ _ Hinv). lia.
  - rewrite (bool_decide_eq_false_2 _ Hi). simpl.
    exists st. split_and!; try done. left.
    pose proof (inv_i _ _ _ Hinv). lia.
Qed.

(** The second loop returns within its budget, having used up the left
    side; the right cursor does not move. *)
Lemma drain_left_run budget temp mid st :
  merge_inv temp mid st →
  ms_i st = mid ∨ ms_j st = len temp →
  (Z.to_nat (mid - ms_i st) < budget)%nat →
  ∃ st', drain_left budget temp mid st = Done st' ∧
    merge_inv temp mid st' ∧
    ms_i st' = mid ∧ ms_j st' = ms_j st ∧
    merge_view less temp mid st' = merge_view less temp mid st.
Proof.
  revert st. induction budget as [|budget IH]; intros st Hinv Hside Hrem; [lia|].
  destruct Hinv as [Hi Hj Hk Hlen Htail].
  destruct st as [data i j k]; simpl in *.
  assert (Hlen' : len data = len temp) by (unfold len; congruence).
  destruct (decide (i < mid)) as [Hlt|Hge].
  - rewrite (bool_decide_eq_true_2 _ Hlt).
    destruct Hside as [?| ->]; [lia|].
    destruct (load_exists temp i) as (ti & Hti & ->); [lia|]. simpl.
    rewrite store_in_range by lia. simpl.
    edestruct (IH (MState (<[Z.to_nat k := ti]> data) (i + 1) (len temp) (k + 1)))
      as (st' & Hrun & Hinv' & ? & ? & Hview); simpl.
    + split; simpl; try lia.
      * by rewrite length_insert.
      * apply write_tail; [lia|done].
    + by right.
    + lia.
    + exists st'. split_and!; try done. rewrite Hview.
      unfold merge_view; simpl.
      rewrite span_empty, !merge_lists_nil_r.
      rewrite (span_cons temp i mid ti) by (done || lia).
      rewrite write_prefix by lia. by rewrite <- app_assoc.
  - rewrite (bool_decide_eq_false_2 _ Hge).
    exists (MState data i j k). split_and!; simpl; try done. lia.
Qed.

(** Once the left side is used up the slice holds the finished output. *)
Lemma merge_view_final temp mid st :
  merge_inv temp mid st → ms_i st = mid →
  merge_view less temp mid st = ms_data st.
Proof.
  intros [Hi Hj Hk Hlen Htail] Himid. unfold merge_view.
  rewrite Himid, span_empty. simpl. rewrite span_to_end.
  assert (ms_k st = ms_j st) as Hkj by lia.
  rewrite <- Hkj, <- Htail. apply take_drop.
Qed.

Lemma merge_view_init data mid :
  0 ≤ mid ≤ len data →
  merge_view less data mid (MState data 0 mid 0) =
  merge_lists less (take (Z.to_nat mid) data) (drop (Z.to_nat mid) data).
Proof.
  intros Hmid. unfold merge_view; simpl.
  rewrite span_to_end. unfold span. simpl. by rewrite Z.sub_0_r.
Qed.

(** The state in which [merge] leaves its loops. *)
Lemma merge_loops_run data mid :
  0 ≤ mid ≤ len data →
  ∃ st st',
    merge_loop less (S (length data)) data mid (MState data 0 mid 0) = Done st ∧
    drain_left (S (length data)) data mid st = Done st' ∧
    merge_inv data mid st ∧ (ms_i st = mid ∨ ms_j st = len data) ∧
    merge_inv data mid st' ∧ ms_i st' = mid ∧
    ms_data st' =
      merge_lists less (take (Z.to_nat mid) data) (drop (Z.to_nat mid) data).
Proof.
  intros Hmid.
  destruct (merge_loop_run (S (length data)) data mid (MState data 0 mid 0))
    as (st & Hrun & Hinv & Hside & Hview).
  { by apply merge_inv_init. }
  { unfold remaining, len in *; simpl. lia. }
  destruct (drain_left_run (S (length data)) data mid st Hinv Hside)
    as (st' & Hrun' & Hinv' & Hi' & _ & Hview').
  { pose proof (inv_i _ _ _ Hinv). unfold len in *. lia. }
  exists st, st'. split_and!; try done.
  rewrite <- (merge_view_final data mid st') by done.
  by rewrite Hview', Hview, merge_view_init.
Qed.

(** [merge] computes the merge of the two halves. *)
Lemma merge_correct data mid :
  0 ≤ mid ≤ len data →
  merge less data mid =
  Done (merge_lists less (take (Z.to_nat mid) data) (drop (Z.to_nat mid) data)).
Proof.
  intros Hmid.
  destruct (merge_loops_run data mid Hmid)
    as (st & st' & Hrun & Hrun' & _ & _ & _ & _ & Hdata).
  unfold merge. rewrite Hrun. exec_simpl. rewrite Hrun'. exec_simpl.
  by rewrite Hdata.
Qed.

(** With the left side used up, the output position is the right cursor and
    the slots from there on already hold the rest of the right side. *)
Lemma left_exhausted temp mid st :
  merge_inv temp mid st → ms_i st = mid →
  ms_k st = ms_j st ∧
  drop (Z.to_nat (ms_k st)) (ms_data st) =
  span temp (ms_j st) (len temp).
Proof.
  intros [Hi Hj Hk Hlen Htail] Himid.
  assert (ms_k st = ms_j st) as Hkj by lia.
  split; [done|]. by rewrite span_to_end, <- Hkj.
Qed.

(** Copying the rest of the right side writes each element over itself. *)
Lemma drain_right_run budget temp mid st :
  merge_inv temp mid st → ms_i st = mid →
  (Z.to_nat (len temp - ms_j st) < budget)%nat →
  ∃ st', drain_right budget temp st = Done st' ∧ ms_data st' = ms_data st.
Proof.
  revert st. induction budget as [|budget IH]; intros st Hinv Himid Hrem; [lia|].
  destruct Hinv as [Hi Hj Hk Hlen Htail].
  destruct st as [data i j k]; simpl in *.
  assert (Hlen' : len data = len temp) by (unfold len; congruence).
  assert (k = j) as -> by lia.
  destruct (decide (j < len data)) as [Hlt|Hge].
  - rewrite (bool_decide_eq_true_2 _ Hlt).
    destruct (load_exists temp j) as (tj & Htj & ->); [lia|]. exec_simpl.
    rewrite store_in_range by lia. exec_simpl.
    assert (data !! Z.to_nat j = Some tj) as Hsame.
    { apply (f_equal (.!! 0%nat)) in Htail.
      rewrite !lookup_drop, Nat.add_0_r in Htail. congruence. }
    rewrite (list_insert_id _ _ _ Hsame).
    apply (IH (MState data i (j + 1) (j + 1))); simpl; [|done|lia].
    split; simpl; try done; try lia.
    replace (Z.to_nat (j + 1)) with (Z.to_nat j + 1)%nat by lia.
    by rewrite <- !drop_drop, Htail.
  - rewrite (bool_decide_eq_false_2 _ Hge). by eexists.
Qed.

(** Leaving out the copy of the right remainder changes nothing. *)
Lemma merge_reference_correct data mid :
  0 ≤ mid ≤ len data →
  merge_reference less data mid = merge less data mid.
Proof.
  intros Hmid.
  destruct (merge_loops_run data mid Hmid)
    as (st & st' & Hrun & Hrun' & _ & _ & Hinv' & Hi' & _).
  destruct (drain_right_run (S (length data)) data mid st' Hinv' Hi')
    as (st'' & Hrun'' & Hdata).
  { pose proof (inv_j _ _ _ Hinv'). unfold len in *. lia. }
  unfold merge_reference, merge.
  rewrite Hrun. exec_simpl. rewrite Hrun'. exec_simpl.
  rewrite Hrun''. exec_simpl. by rewrite Hdata.
Qed.

(** ** The merge as a function of the two halves *)

Lemma merge_lists_perm l r : merge_lists less l r ≡ₚ l ++ r.
Proof.
  revert r. induction l as [|x l IHl]; intros r; [done|].
  induction r as [|y r IHr].
  - by rewrite merge_lists_nil_r, app_nil_r.
  - rewrite merge_lists_cons. destruct (less x y).
    + simpl. by rewrite IHl.
    + rewrite IHr. apply (Permutation_middle (x :: l)).
Qed.

Lemma merge_lists_length l r :
  length (merge_lists less l r) = (length l + length r)%nat.
Proof. by rewrite merge_lists_perm, length_app. Qed.



Lemma merge_halves lo hi :
  merge less (lo ++ hi) (len lo) = Done (merge_lists less lo hi).
Proof.
  rewrite merge_correct.
  - unfold len. rewrite Nat2Z.id. by rewrite take_app_length, drop_app_length.
  - unfold len. rewrite length_app. lia.
Qed.

End MergeFacts.

(** ** Order *)

Section Ordering.
Context {T : Type} (less : T → T → bool).
Implicit Types (l r : list T) (a b x y : T).

(** [IsSorted] against the two standard readings of "in order". *)
Lemma IsSorted_Sorted l :
  IsSorted less l = true ↔ Sorted (not_after less) l.
Proof.
  induction l as [|x l IH]; [by split; [constructor|]|].
  destruct l as [|y l]; [by split; [repeat constructor|]|].
  change (IsSorted less (x :: y :: l))
    with (if less y x then false else IsSorted less (y :: l)).
  split.
  - destruct (less y x) eqn:Hyx; [done|]. intros Hs.
    constructor; [by apply IH|by constructor].
  - intros Hs. apply Sorted_inv in Hs as [Hs Hhd].
    apply HdRel_inv in Hhd. unfold not_after in Hhd. rewrite Hhd. by apply IH.
Qed.

Lemma short_Sorted l : len l < 2 → Sorted (not_after less) l.
Proof.
  destruct l as [|x [|y l]]; [by repeat constructor..|].
  unfold len. simpl. lia.
Qed.

Lemma Sorted_adjacent l :
  Sorted (not_after less) l ↔
  ∀ (i : nat) x y, l !! i = Some x → l !! S i = Some y → less y x = false.
Proof.
  split.
  - induction 1 as [|x l Hs IH Hhd]; intros i a b Ha Hb; [done|].
    destruct i as [|i]; simpl in *.
    + destruct Hhd as [|y l Hxy]; [done|]. unfold not_after in Hxy.
      simpl in *. congruence.
    + by eapply IH.
  - induction l as [|x l IH]; intros Hadj; constructor.
    + apply IH. intros i a b Ha Hb. by apply (Hadj (S i)).
    + destruct l as [|y l]; constructor. by apply (Hadj 0%nat).
Qed.

Section StrictWeak.
Hypothesis Hless : StrictWeakOrder less.

Lemma swo_asymmetric a b : less a b = true → less b a = false.
Proof.
  intros Hab. destruct (less b a) eqn:Hba; [|done].
  pose proof (swo_transitive _ Hless a b a Hab Hba) as Haa.
  by rewrite (swo_irreflexive _ Hless) in Haa.
Qed.

Lemma not_after_refl a : not_after less a a.
Proof. apply (swo_irreflexive _ Hless). Qed.

Lemma not_after_trans a b c :
  not_after less a b → not_after less b c → not_after less a c.
Proof. unfold not_after. intros Hab Hbc. by apply (swo_negatively_transitive _ Hless c b a). Qed.

Lemma less_not_after_trans a b c :
  not_after less a b → less b c = true → less a c = true.
Proof.
  unfold not_after. intros Hab Hbc.
  destruct (less a c) eqn:Hac; [done|].
  by rewrite (swo_negatively_transitive _ Hless b a c Hab Hac) in Hbc.
Qed.

Lemma Sorted_strongly l :
  Sorted (not_after less) l → StronglySorted (not_after less) l.
Proof.
  apply Sorted_StronglySorted. intros a b c. apply not_after_trans.
Qed.

(** The merge of two ordered halves is ordered. *)
Lemma merge_lists_Sorted l r :
  Sorted (not_after less) l → Sorted (not_after less) r →
  Sorted (not_after less) (merge_lists less l r).
Proof.
  intros Hl. revert r. induction Hl as [|x l Hl IHl Hxl]; intros r Hr; [done|].
  induction Hr as [|y r Hr IHr Hyr].
  { rewrite merge_lists_nil_r. by constructor. }
  rewrite merge_lists_cons. destruct (less x y) eqn:Hxy.
  - constructor; [apply IHl; by constructor|].
    destruct Hxl as [|z l Hxz].
    + constructor. by apply swo_asymmetric.
    + rewrite merge_lists_cons. destruct (less z y); constructor; [done|].
      by apply swo_asymmetric.
  - constructor; [done|].
    destruct Hyr as [|z r Hyz].
    + rewrite merge_lists_nil_r. by constructor.
    + rewrite merge_lists_cons. destruct (less x z); by constructor.
Qed.

(** *** Two ordered arrangements of the same elements *)

Lemma none_before l x :
  Forall (not_after less x) l → filter (λ z, less z x = true) l = [].
Proof.
  induction 1 as [|z l Hz _ IH]; [done|].
  rewrite filter_cons_False; [done|]. unfold not_after in Hz. by rewrite Hz.
Qed.

(** In an ordered list, fewer than [i+1] elements sort before the one at
    position [i] ... *)
Lemma count_before_le l (i : nat) x :
  StronglySorted (not_after less) l → l !! i = Some x →
  (length (filter (λ z, less z x = true) l) ≤ i)%nat.
Proof.
  intros Hs. revert i. induction Hs as [|a l Hs IH Hal]; intros i Hi; [done|].
  destruct i as [|i]; simpl in Hi.
  - injection Hi as ->. rewrite filter_cons_False
      by (rewrite (swo_irreflexive _ Hless); done).
    by rewrite none_before.
  - specialize (IH i Hi). rewrite filter_cons. destruct (decide _); simpl; lia.
Qed.

(** ... and at least [i+1] sort before anything the element at position
    [i] sorts before. *)
Lemma count_before_ge l (i : nat) x y :
  StronglySorted (not_after less) l → l !! i = Some x → less x y = true →
  (S i ≤ length (filter (λ z, less z y = true) l))%nat.
Proof.
  intros Hs. revert i. induction Hs as [|a l Hs IH Hal]; intros i Hi Hxy; [done|].
  destruct i as [|i]; simpl in Hi.
  - injection Hi as ->. rewrite filter_cons_True by done. simpl. lia.
  - specialize (IH i Hi Hxy).
    rewrite filter_cons_True; [simpl; lia|].
    apply (less_not_after_trans a x y); [|done].
    rewrite Forall_forall in Hal. apply Hal. by eapply list_elem_of_lookup_2.
Qed.

Lemma sorted_perm_not_less l r (i : nat) x y :
  StronglySorted (not_after less) l → StronglySorted (not_after less) r →
  l ≡ₚ r → l !! i = Some x → r !! i = Some y → less x y = false.
Proof.
  intros Hl Hr Hperm Hx Hy. destruct (less x y) eqn:Hxy; [|done].
  pose proof (count_before_ge l i x y Hl Hx Hxy) as Hge.
  pose proof (count_before_le r i y Hr Hy) as Hle.
  rewrite Hperm in Hge. lia.
Qed.

(** Position by position they hold elements that are equal under the
    ordering. *)
Lemma sorted_perm_tied l r :
  Sorted (not_after less) l → Sorted (not_after less) r → l ≡ₚ r →
  Forall2 (tied less) l r.
Proof.
  intros Hl%Sorted_strongly Hr%Sorted_strongly Hperm.
  apply Forall2_same_length_lookup_2; [by apply Permutation_length|].
  intros i x y Hx Hy. split.
  - by apply (sorted_perm_not_less l r i).
  - by apply (sorted_perm_not_less r l i).
Qed.

(** When elements equal under the ordering are equal, the ordered
    arrangement is unique. *)
Lemma sorted_perm_unique l r :
  (∀ x y, x ∈ l → y ∈ l → tied less x y → x = y) →
  Sorted (not_after less) l → Sorted (not_after less) r → l ≡ₚ r →
  l = r.
Proof.
  intros Hties Hl Hr Hperm.
  pose proof (sorted_perm_tied l r Hl Hr Hperm) as Hall.
  apply list_eq_Forall2. apply Forall2_same_length_lookup_2.
  { by eapply Forall2_length. }
  intros i x y Hx Hy. apply Hties.
  - by eapply list_elem_of_lookup_2.
  - rewrite Hperm. by eapply list_elem_of_lookup_2.
  - by eapply Forall2_lookup_lr.
Qed.

End StrictWeak.
End Ordering.

(** ** ParallelSort *)

Section SortFacts.
Context {T : Type}.
Variable sort_Slice : list T → (T → T → bool) → list T.
Variable less : T → T → bool.
Implicit Types (data lo hi out : list T) (p : Z).

Abbreviation ParallelSort := (ParallelSort sort_Slice less).

(** The body of [ParallelSort], lines 42-62. *)
Lemma ParallelSort_eq data p :
  ParallelSort data p =
  if bool_decide (len data < 2) then Done data
  else if bool_decide (p ≤ 1) || bool_decide (len data < 1000)
  then Done (SortBy sort_Slice less data)
  else
    let mid := len data `quot` 2 in
    fork_join
      (ParallelSort (take (Z.to_nat mid) data) (p `quot` 2))
      (ParallelSort (drop (Z.to_nat mid) data) (p `quot` 2))
      (λ lo hi, merge less (lo ++ hi) mid).
Proof.
  simp ParallelSort.
  destruct (decide (len data < 2)) as [Hlen|Hlen]; simpl.
  { by rewrite bool_decide_eq_true_2. }
  rewrite (bool_decide_eq_false_2 _ Hlen).
  destruct (decide (p ≤ 1 ∨ len data < 1000)) as [Hseq|Hpar]; simpl.
  - destruct Hseq as [Hp|Hsmall].
    + by rewrite (bool_decide_eq_true_2 _ Hp).
    + by rewrite (bool_decide_eq_true_2 _ Hsmall), orb_true_r.
  - by rewrite !bool_decide_eq_false_2 by tauto.
Qed.

(** Both halves of a slice of two or more elements are strictly shorter
    than the slice: the measure on which [ParallelSort] recurses. *)
Lemma half_shorter data :
  2 ≤ len data →
  (length (take (Z.to_nat (len data `quot` 2)) data) < length data)%nat ∧
  (length (drop (Z.to_nat (len data `quot` 2)) data) < length data)%nat.
Proof.
  unfold len. intros Hlen.
  assert (Z.of_nat (length data) `quot` 2 < Z.of_nat (length data))
    by (apply Z.quot_lt; lia).
  assert (0 < Z.of_nat (length data) `quot` 2)
    by (apply Z.quot_str_pos; lia).
  rewrite length_take, length_drop. lia.
Qed.

Lemma ParallelSort_sequential data p :
  ¬ len data < 2 → p ≤ 1 ∨ len data < 1000 →
  ParallelSort data p = Done (SortBy sort_Slice less data).
Proof.
  intros Hlen Hseq. rewrite ParallelSort_eq.
  rewrite (bool_decide_eq_false_2 _ Hlen).
  destruct Hseq as [Hp|Hsmall].
  - by rewrite (bool_decide_eq_true_2 _ Hp).
  - by rewrite (bool_decide_eq_true_2 _ Hsmall), orb_true_r.
Qed.

Lemma ParallelSort_split data p :
  1 < p → 1000 ≤ len data →
  ParallelSort data p =
  fork_join
    (ParallelSort (take (Z.to_nat (len data `quot` 2)) data) (p `quot` 2))
    (ParallelSort (drop (Z.to_nat (len data `quot` 2)) data) (p `quot` 2))
    (λ lo hi, merge less (lo ++ hi) (len data `quot` 2)).
Proof.
  intros Hp Hlen. rewrite ParallelSort_eq.
  by rewrite !bool_decide_eq_false_2 by lia.
Qed.

Lemma mid_in_range data :
  0 ≤ len data `quot` 2 ≤ len data.
Proof.
  unfold len. split; [apply Z.quot_pos; lia|].
  apply Z.quot_le_upper_bound; lia.
Qed.

Lemma take_mid_length data :
  len (take (Z.to_nat (len data `quot` 2)) data) = len data `quot` 2.
Proof.
  pose proof (mid_in_range data) as Hmid. unfold len in *.
  rewrite length_take. lia.
Qed.

(** [sort.Slice] works in place: the slice keeps its length, whatever the
    comparator. *)
Hypothesis sort_Slice_length :
  ∀ l (cmp : T → T → bool), length (sort_Slice l cmp) = length l.

(** Induction over the call tree of [ParallelSort].  A relation between the
    slice before and after that holds when the slice is left alone, when it
    is sorted by [SortBy], and when two halves so related are merged, holds
    of every call; and every call returns, the slice as long as it was. *)
Lemma ParallelSort_run (R : list T → list T → Prop) :
  (∀ data, len data < 2 → R data data) →
  (∀ data, R data (SortBy sort_Slice less data)) →
  (∀ data (m : nat) lo hi,
     R (take m data) lo → R (drop m data) hi →
     R data (merge_lists less lo hi)) →
  ∀ data p, ∃ out,
    ParallelSort data p = Done out ∧ length out = length data ∧ R data out.
Proof.
  intros Hsmall Hseq Hmerge data.
  induction data as [data IH] using (induction_ltof1 _ (@length T)).
  unfold ltof in IH. intros p. rewrite ParallelSort_eq.
  case_bool_decide as Hlen; [by eauto|].
  destruct (bool_decide (p ≤ 1) || bool_decide (len data < 1000)).
  { eexists. split_and!; [done|apply sort_Slice_length|apply Hseq]. }
  cbv zeta.
  destruct (half_shorter data) as [Hlo Hhi]; [lia|].
  destruct (IH _ Hlo (p `quot` 2)) as (lo & -> & Hllo & HRlo).
  destruct (IH _ Hhi (p `quot` 2)) as (hi & -> & Hlhi & HRhi).
  unfold fork_join. cbn [mbind exec_bind].
  rewrite <- (take_mid_length data).
  replace (len (take (Z.to_nat (len data `quot` 2)) data)) with (len lo)
    by (unfold len; by rewrite Hllo).
  rewrite merge_halves. eexists. split_and!; [done| |by eapply Hmerge].
  by rewrite merge_lists_length, Hllo, Hlhi, <- length_app, take_drop.
Qed.

End SortFacts.

(** ** The recursion of ParallelSort *)

Section Recursion.
Context {T : Type}.
Implicit Types (a b : list T * Z).

Lemma recursive_call_decreases a b :
  recursive_call a b →
  a.2 = b.2 `quot` 2 ∧ 0 < a.2 < b.2 ∧ (length a.1 < length b.1)%nat.
Proof.
  intros [data p Hlen Hpar|data p Hlen Hpar]; simpl;
    (assert (0 < p `quot` 2) by (apply Z.quot_str_pos; lia));
    (assert (p `quot` 2 < p) by (apply Z.quot_lt; lia));
    (destruct (half_shorter data) as [Hlo Hhi]; [lia|]);
    split_and!; done.
Qed.

Lemma recursive_call_wf : well_founded (@recursive_call T).
Proof.
  apply (well_founded_lt_compat _ (λ a, length a.1)).
  intros a b Hcall. by apply recursive_call_decreases.
Qed.

(** The budget at least halves with every level of nesting. *)
Lemma nested_budget n a b : nested n a b → a.2 * 2 ^ Z.of_nat n ≤ b.2.
Proof.
  induction 1 as [a|n a b c Hcall Hnest IH]; [simpl; lia|].
  apply recursive_call_decreases in Hcall as (Hquot & Hpos & _).
  rewrite Nat2Z.inj_succ, Z.pow_succ_r by lia.
  assert (2 * a.2 ≤ b.2).
  { rewrite Hquot. rewrite Z.quot_div_nonneg by lia.
    apply Z.mul_div_le. lia. }
  assert (0 ≤ 2 ^ Z.of_nat n) by (apply Z.pow_nonneg; lia).
  nia.
Qed.

End Recursion.

(** ** A sorting procedure that meets the contract *)

Section Insertion.
Context {T : Type}.
Implicit Types (l : list T) (less : T → T → bool).

Lemma insert_before_perm less x l : insert_before less x l ≡ₚ x :: l.
Proof.
  induction l as [|y l IH]; [done|]. simpl.
  destruct (less y x); [|done]. rewrite IH. apply perm_swap.
Qed.

Lemma insertion_Slice_permutes l less : insertion_Slice l less ≡ₚ l.
Proof.
  induction l as [|x l IH]; [done|].
  unfold insertion_Slice in *. simpl. by rewrite insert_before_perm, IH.
Qed.

Lemma insert_before_Sorted less x l :
  StrictWeakOrder less →
  Sorted (not_after less) l → Sorted (not_after less) (insert_before less x l).
Proof.
  intros Hless. induction 1 as [|y l Hl IH Hyl]; simpl; [by repeat constructor|].
  destruct (less y x) eqn:Hyx.
  - constructor; [done|].
    destruct Hyl as [|z l Hyz]; simpl.
    + constructor. by apply swo_asymmetric.
    + destruct (less z x); constructor; [done|]. by apply swo_asymmetric.
  - constructor; [by constructor|by constructor].
Qed.

Lemma insertion_Slice_sorts l less :
  StrictWeakOrder less → IsSorted less (insertion_Slice l less) = true.
Proof.
  intros Hless. apply IsSorted_Sorted.
  induction l as [|x l IH]; [constructor|].
  by apply insert_before_Sorted.
Qed.


End Insertion.

Lemma Zltb_StrictWeakOrder : StrictWeakOrder Z.ltb.
Proof. split; intros; lia. Qed.


(** * The properties of ParallelSort *)

Section Claims.
Context {T : Type}.
Implicit Types (sort_Slice : list T → (T → T → bool) → list T).
Implicit Types (less : T → T → bool) (data out : list T).

(** C1 (sortedness).  For a comparator that is a strict weak ordering, and
    a [sort.Slice] that sorts, every call of [ParallelSort] returns with
    the slice in order: [IsSorted] holds of it, that is, no adjacent
    positions [i], [i+1] have [less(out[i+1], out[i])]. *)
Theorem ParallelSort_sorted sort_Slice less :
  (∀ l cmp, sort_Slice l cmp ≡ₚ l) →
  (∀ l cmp, StrictWeakOrder cmp → IsSorted cmp (sort_Slice l cmp) = true) →
  StrictWeakOrder less →
  ∀ data (parallelism : Z), ∃ out,
    ParallelSort sort_Slice less data parallelism = Done out ∧
    IsSorted less out = true ∧
    ∀ (i : nat) x y, out !! i = Some x → out !! S i = Some y → less y x = false.
Proof.
  intros Hperm Hsorts Hless data p.
  destruct (ParallelSort_run sort_Slice less (λ l cmp, Permutation_length (Hperm l cmp))
              (λ _ out, Sorted (not_after less) out))
    with (data := data) (p := p) as (out & Hrun & _ & Hout).
  - intros l. by apply short_Sorted.
  - intros l. apply IsSorted_Sorted. by apply Hsorts.
  - intros _ _ lo hi. by apply merge_lists_Sorted.
  - exists out. split_and!; [done|by apply IsSorted_Sorted|].
    by apply Sorted_adjacent.
Qed.

(** C2 (permutation).  Whatever the comparator and the parallelism, the
    slice after the call is a rearrangement of the slice before it. *)
Theorem ParallelSort_permutation sort_Slice less :
  (∀ l cmp, sort_Slice l cmp ≡ₚ l) →
  ∀ data (parallelism : Z), ∃ out,
    ParallelSort sort_Slice less data parallelism = Done out ∧ out ≡ₚ data.
Proof.
  intros Hperm data p.
  destruct (ParallelSort_run sort_Slice less (λ l cmp, Permutation_length (Hperm l cmp))
              (λ data out, out ≡ₚ data))
    with (data := data) (p := p) as (out & Hrun & _ & Hout); [done|..].
  - intros l. apply Hperm.
  - intros l m lo hi Hlo Hhi. by rewrite merge_lists_perm, Hlo, Hhi, take_drop.
  - by exists out.
Qed.

(** C7 (empty and singleton slices).  On a nil or empty slice and on a
    slice of one element [ParallelSort] returns at once, the slice
    untouched, whatever the comparator and whatever the integer passed as
    parallelism. *)
Theorem ParallelSort_short sort_Slice less (parallelism : Z) (x : T) :
  ParallelSort sort_Slice less [] parallelism = Done [] ∧
  ParallelSort sort_Slice less [x] parallelism = Done [x].
Proof. by rewrite !ParallelSort_eq. Qed.

End Claims.

Lemma ParallelSort_sorted_witness :
  ∃ out,
    ParallelSort insertion_Slice Z.ltb (reverse (seqZ 0 2000)) 8 = Done out ∧
    IsSorted Z.ltb out = true ∧
    ∀ (i : nat) x y, out !! i = Some x → out !! S i = Some y → (y <? x) = false.
Proof.
  apply (ParallelSort_sorted insertion_Slice Z.ltb).
  - apply insertion_Slice_permutes.
  - apply insertion_Slice_sorts.
  - apply Zltb_StrictWeakOrder.
Defined.

Lemma ParallelSort_permutation_witness :
  ∃ out,
    ParallelSort insertion_Slice (λ _ _ : Z, true) (reverse (seqZ 0 2000)) 8 =
      Done out ∧
    out ≡ₚ reverse (seqZ 0 2000).
Proof.
  apply (ParallelSort_permutation insertion_Slice (λ _ _ : Z, true)).
  apply insertion_Slice_permutes.
Defined.

Section MergeClaims.
Context {T : Type} (less : T → T → bool).
Implicit Types (temp data : list T) (l r : T).



(** C9 (the right remainder).  For a split point within the slice, [merge]
    returns, and it leaves the slice exactly as the variant that also
    copies what remains of the right side, both holding the two-way merge
    of the halves in which the remainder of either side is copied once the
    other is used up.  The first loop ends with one side used up; when it
    is the left side, the output position is the right cursor and the slots
    from there on already hold what remains of the right side. *)
Theorem merge_without_right_copy data (mid : Z) :
  0 ≤ mid ≤ len data →
  ∃ out,
    merge less data mid = Done out ∧
    merge_reference less data mid = Done out ∧
    out = merge_lists less (take (Z.to_nat mid) data) (drop (Z.to_nat mid) data) ∧
    ∃ st,
      merge_loop less (S (length data)) data mid (MState data 0 mid 0) = Done st ∧
      (ms_i st = mid ∨ ms_j st = len data) ∧
      (ms_i st = mid →
       ms_k st = ms_j st ∧
       drop (Z.to_nat (ms_k st)) (ms_data st) = span data (ms_j st) (len data)).
Proof.
  intros Hmid. eexists. split_and!; [| |reflexivity|].
  - by apply merge_correct.
  - rewrite merge_reference_correct by done. by apply merge_correct.
  - destruct (merge_loops_run less data mid Hmid)
      as (st & _ & Hrun & _ & Hinv & Hside & _).
    exists st. split_and!; [done|done|].
    intros Hi. by apply left_exhausted with (mid := mid).
Qed.

End MergeClaims.



Lemma merge_without_right_copy_witness :
  ∃ out,
    merge Z.ltb [1; 4; 9; 2; 3; 10] 3 = Done out ∧
    merge_reference Z.ltb [1; 4; 9; 2; 3; 10] 3 = Done out ∧
    out = merge_lists Z.ltb (take (Z.to_nat 3) [1; 4; 9; 2; 3; 10])
                            (drop (Z.to_nat 3) [1; 4; 9; 2; 3; 10]) ∧
    ∃ st,
      merge_loop Z.ltb 7 [1; 4; 9; 2; 3; 10] 3 (MState [1; 4; 9; 2; 3; 10] 0 3 0)
        = Done st ∧
      (ms_i st = 3 ∨ ms_j st = len [1; 4; 9; 2; 3; 10]) ∧
      (ms_i st = 3 →
       ms_k st = ms_j st ∧
       drop (Z.to_nat (ms_k st)) (ms_data st) =
         span [1; 4; 9; 2; 3; 10] (ms_j st) (len [1; 4; 9; 2; 3; 10])).
Proof.
  apply (merge_without_right_copy Z.ltb [1; 4; 9; 2; 3; 10] 3).
  unfold len. simpl. lia.
Defined.

(** ** Elements that are equal under the ordering *)

(** On [tied_run] with a budget of two, each half goes to [sort.Slice],
    which can only return it as it is, and the merge then takes the whole
    right half first: the outcome does not depend on [sort.Slice]. *)
Lemma tied_run_parallel (sort_Slice : list (Z * Z) → _ → list (Z * Z)) :
  (∀ l cmp, sort_Slice l cmp ≡ₚ l) →
  ParallelSort sort_Slice by_key tied_run 2 = Done tied_run_swapped.
Proof.
  intros Hperm.
  assert (Hhalf : ∀ x, ParallelSort sort_Slice by_key (replicate 500 x) 1 =
                       Done (replicate 500 x)).
  { intros x. rewrite ParallelSort_sequential.
    - f_equal. symmetry. apply replicate_Permutation.
      unfold SortBy. by rewrite Hperm.
    - unfold len. rewrite length_replicate. lia.
    - by left. }
  assert (len tied_run = 1000) as Hlen by (by vm_compute).
  rewrite ParallelSort_split by lia. rewrite Hlen.
  change (1000 `quot` 2) with 500. change (2 `quot` 2) with 1.
  unfold tied_run.
  rewrite take_app_length', drop_app_length' by (by rewrite length_replicate).
  rewrite !Hhalf. unfold fork_join. cbn [mbind exec_bind].
  by vm_compute.
Qed.

(** With a budget of one the slice goes to [sort.Slice] as a whole. *)
Lemma tied_run_sequential (sort_Slice : list (Z * Z) → _ → list (Z * Z)) :
  ParallelSort sort_Slice by_key tied_run 1 = Done (sort_Slice tied_run by_key).
Proof.
  assert (len tied_run = 1000) as Hlen by (by vm_compute).
  by rewrite ParallelSort_sequential by lia.
Qed.

(** The two budgets can only agree on [tied_run] if [sort.Slice] exchanges
    the halves of a slice that is already in order. *)
Lemma tied_run_budgets_agree (sort_Slice : list (Z * Z) → _ → list (Z * Z)) :
  (∀ l cmp, sort_Slice l cmp ≡ₚ l) →
  ParallelSort sort_Slice by_key tied_run 1 =
  ParallelSort sort_Slice by_key tied_run 2 →
  sort_Slice tied_run by_key = tied_run_swapped.
Proof.
  intros Hperm. rewrite tied_run_sequential, tied_run_parallel by done.
  by intros [= ->].
Qed.

Section TieClaims.
Context {T : Type}.
Implicit Types (sort_Slice : list T → (T → T → bool) → list T).
Implicit Types (less : T → T → bool) (data out : list T).

Lemma ParallelSort_sorted_perm sort_Slice less :
  (∀ l cmp, sort_Slice l cmp ≡ₚ l) →
  (∀ l cmp, StrictWeakOrder cmp → IsSorted cmp (sort_Slice l cmp) = true) →
  StrictWeakOrder less →
  ∀ data (p : Z), ∃ out,
    ParallelSort sort_Slice less data p = Done out ∧
    out ≡ₚ data ∧ Sorted (not_after less) out.
Proof.
  intros Hperm Hsorts Hless data p.
  destruct (ParallelSort_run sort_Slice less (λ l cmp, Permutation_length (Hperm l cmp))
              (λ data out, out ≡ₚ data ∧ Sorted (not_after less) out))
    with (data := data) (p := p) as (out & Hrun & _ & Hout).
  - intros l Hlen. split; [done|by apply short_Sorted].
  - intros l. split; [apply Hperm|]. apply IsSorted_Sorted. by apply Hsorts.
  - intros l m lo hi [Hlo ?] [Hhi ?]. split.
    + by rewrite merge_lists_perm, Hlo, Hhi, take_drop.
    + by apply merge_lists_Sorted.
  - by exists out.
Qed.

(** C4 (a slice already in order), as the code has it.  When the slice is
    in order and any two of its elements that are equal under the ordering
    are the same element value, [ParallelSort] leaves every position as it
    was, whatever the parallelism. *)
Theorem ParallelSort_sorted_input sort_Slice less :
  (∀ l cmp, sort_Slice l cmp ≡ₚ l) →
  (∀ l cmp, StrictWeakOrder cmp → IsSorted cmp (sort_Slice l cmp) = true) →
  StrictWeakOrder less →
  ∀ data (parallelism : Z),
    IsSorted less data = true →
    (∀ x y, x ∈ data → y ∈ data → tied less x y → x = y) →
    ParallelSort sort_Slice less data parallelism = Done data.
Proof.
  intros Hperm Hsorts Hless data p Hsorted Hties.
  destruct (ParallelSort_sorted_perm sort_Slice less Hperm Hsorts Hless data p)
    as (out & -> & Hout & Hord).
  f_equal. symmetry. apply (sorted_perm_unique less); try done.
  by apply IsSorted_Sorted.
Qed.


End TieClaims.

Lemma sorted_ties_rearranged :
  IsSorted by_key tied_run = true ∧
  ParallelSort insertion_Slice by_key tied_run 2 = Done tied_run_swapped ∧
  tied_run_swapped ≠ tied_run.
Proof.
  split_and!.
  - by vm_compute.
  - apply tied_run_parallel, insertion_Slice_permutes.
  - intros Heq. apply (f_equal (.!! 0%nat)) in Heq. by vm_compute in Heq.
Qed.


Lemma ParallelSort_sorted_input_witness :
  ParallelSort insertion_Slice Z.ltb (seqZ 0 1000) 4 = Done (seqZ 0 1000).
Proof.
  apply (ParallelSort_sorted_input insertion_Slice Z.ltb).
  - apply insertion_Slice_permutes.
  - apply insertion_Slice_sorts.
  - apply Zltb_StrictWeakOrder.
  - by vm_compute.
  - unfold tied. intros x y _ _ [Hxy Hyx]. lia.
Defined.


(** ** Safety and termination *)

Section SafetyClaims.
Context {T : Type}.
Implicit Types (sort_Slice : list T → (T → T → bool) → list T).
Implicit Types (less : T → T → bool) (temp data out : list T) (mid : Z).

(** [merge] is only safe for a split point within the slice: beyond the
    end, the second loop runs off the copy. *)
Lemma drain_left_overrun budget temp mid data (i j : Z) :
  length data = length temp → 0 ≤ i ≤ len temp → len temp < mid →
  (Z.to_nat (len temp - i) < budget)%nat →
  drain_left budget temp mid (MState data i j i) = IndexPanic.
Proof.
  revert data i. induction budget as [|budget IH]; intros data i Hlen Hi Hmid Hb; [lia|].
  simpl. rewrite bool_decide_eq_true_2 by lia.
  destruct (decide (i < len temp)) as [Hlt|Hge].
  - destruct (load_exists temp i) as (ti & _ & ->); [lia|]. exec_simpl.
    rewrite store_in_range by (unfold len in *; lia). exec_simpl.
    apply IH; [by rewrite length_insert|lia|done|lia].
  - by rewrite load_out_of_range by lia.
Qed.

Lemma merge_mid_beyond_end less data mid :
  len data < mid → merge less data mid = IndexPanic.
Proof.
  intros Hmid. unfold merge. cbn [merge_loop ms_i ms_j ms_data].
  rewrite (bool_decide_eq_false_2 (mid < len data)), andb_false_r by lia.
  exec_simpl. rewrite drain_left_overrun; [done|done|unfold len; lia|done|].
  unfold len. lia.
Qed.

(** C6 (safety for any comparator).  Nothing is asked of [less].  Each
    pass through the merge loop reads and writes within bounds, keeps the
    cursors within their ranges, and moves the output position on by one
    while the number of passes left goes down; [merge] with a split point
    within the slice returns; and every call of [ParallelSort] returns,
    without a panic and without exhausting a loop. *)
Theorem ParallelSort_safe sort_Slice less :
  (∀ l cmp, length (sort_Slice l cmp) = length l) →
  (∀ temp mid st,
     merge_inv temp mid st → ms_i st < mid → ms_j st < len (ms_data st) →
     0 ≤ ms_i st < len temp ∧ 0 ≤ ms_j st < len temp ∧
     0 ≤ ms_k st < len (ms_data st) ∧
     ∃ st', merge_body less temp st = Done st' ∧
       merge_inv temp mid st' ∧
       ms_k st' = ms_k st + 1 ∧
       (remaining temp mid st' < remaining temp mid st)%nat) ∧
  (∀ data mid,
     0 ≤ mid ≤ len data →
     merge_inv data mid (MState data 0 mid 0) ∧
     ∃ out, merge less data mid = Done out ∧ length out = length data) ∧
  (∀ data (parallelism : Z), ∃ out,
     ParallelSort sort_Slice less data parallelism = Done out ∧
     length out = length data).
Proof.
  intros Hlength. split_and!.
  - intros temp mid st Hinv Hi Hj.
    destruct (merge_body_step less temp mid st Hinv Hi Hj)
      as (st' & Hrun & Hinv' & Hk' & Hrem & _).
    destruct Hinv as [Hi0 Hj0 Hk Hlen _].
    assert (len (ms_data st) = len temp) by (unfold len; congruence).
    split_and!; try lia. by exists st'.
  - intros data mid Hmid. split; [by apply merge_inv_init|].
    rewrite merge_correct by done. eexists. split; [done|].
    by rewrite merge_lists_length, <- length_app, take_drop.
  - intros data p.
    destruct (ParallelSort_run sort_Slice less Hlength (λ _ _, True))
      with (data := data) (p := p) as (out & Hrun & Hout & _); try done.
    by exists out.
Qed.

Lemma merge_negative_split less data mid :
  mid < 0 → merge less data mid = Done data.
Proof.
  intros Hmid. unfold merge. cbn [merge_loop drain_left ms_i ms_j ms_data].
  case_bool_decide; [lia|]. cbn [andb]. exec_simpl.
  case_bool_decide; [lia|done].
Qed.

(** The loops of [merge] end within their budget wherever the split point
    lies. *)
Lemma merge_never_spins less data mid : merge less data mid ≠ Spin.
Proof.
  destruct (decide (mid < 0)) as [Hneg|Hpos].
  { by rewrite merge_negative_split. }
  destruct (decide (mid ≤ len data)) as [Hin|Hout].
  - by rewrite merge_correct by lia.
  - by rewrite merge_mid_beyond_end by lia.
Qed.

(** No call of [ParallelSort] is left looping, whatever [sort.Slice] and
    the comparator do. *)
Lemma ParallelSort_never_spins sort_Slice less data (p : Z) :
  ParallelSort sort_Slice less data p ≠ Spin.
Proof.
  revert p. induction data as [data IH] using (induction_ltof1 _ (@length T)).
  unfold ltof in IH. intros p. rewrite ParallelSort_eq.
  case_bool_decide as Hlen; [done|].
  destruct (bool_decide (p ≤ 1) || bool_decide (len data < 1000)); [done|].
  cbv zeta. destruct (half_shorter data) as [Hlo Hhi]; [lia|].
  pose proof (IH _ Hlo (p `quot` 2)) as Hspawned.
  pose proof (IH _ Hhi (p `quot` 2)) as Hcurrent.
  unfold fork_join.
  destruct (ParallelSort sort_Slice less (take _ data) _) as [lo| | |];
    [|done..]. cbn [mbind exec_bind].
  destruct (ParallelSort sort_Slice less (drop _ data) _) as [hi| | |];
    [|done..]. cbn [mbind exec_bind].
  apply merge_never_spins.
Qed.

(** C8 (termination).  [ParallelSort] recurses only with a budget above
    one on a slice of a thousand elements or more, and then on the two
    halves with the budget halved by integer division.  Each recursive call
    has a strictly smaller, still positive budget and a strictly shorter
    slice; [n] levels down the budget has been divided by [2^n] at least;
    and the relation between a call and the calls it makes is
    well-founded.  No call is left looping, on either path; and as
    [sort.Slice] keeps the length of the slice, every call returns. *)
Theorem ParallelSort_recursion :
  (∀ sort_Slice less data (parallelism : Z),
     parallelism ≤ 1 ∨ len data < 1000 →
     ParallelSort sort_Slice less data parallelism =
     Done (if bool_decide (len data < 2) then data
           else SortBy sort_Slice less data)) ∧
  (∀ sort_Slice less data (parallelism : Z),
     1 < parallelism → 1000 ≤ len data →
     ∃ spawned current,
       recursive_call spawned (data, parallelism) ∧
       recursive_call current (data, parallelism) ∧
       ParallelSort sort_Slice less data parallelism =
       fork_join
         (ParallelSort sort_Slice less spawned.1 spawned.2)
         (ParallelSort sort_Slice less current.1 current.2)
         (λ lo hi, merge less (lo ++ hi) (len data `quot` 2))) ∧
  (∀ callee caller : list T * Z,
     recursive_call callee caller →
     callee.2 = caller.2 `quot` 2 ∧ 0 < callee.2 < caller.2 ∧
     (length callee.1 < length caller.1)%nat) ∧
  (∀ (n : nat) (callee caller : list T * Z),
     nested n callee caller → callee.2 * 2 ^ Z.of_nat n ≤ caller.2) ∧
  well_founded (@recursive_call T) ∧
  (∀ sort_Slice less data (parallelism : Z),
     ParallelSort sort_Slice less data parallelism ≠ Spin) ∧
  (∀ sort_Slice less,
     (∀ l cmp, length (sort_Slice l cmp) = length l) →
     ∀ data (parallelism : Z), ∃ out,
       ParallelSort sort_Slice less data parallelism = Done out ∧
       length out = length data).
Proof.
  split_and!.
  - intros sort_Slice less data p Hseq. rewrite ParallelSort_eq.
    case_bool_decide; [done|].
    destruct Hseq as [Hp|Hsmall].
    + by rewrite (bool_decide_eq_true_2 _ Hp).
    + by rewrite (bool_decide_eq_true_2 _ Hsmall), orb_true_r.
  - intros sort_Slice less data p Hp Hlen.
    eexists (_, _), (_, _). split_and!.
    + apply call_spawned; lia.
    + apply call_current; lia.
    + by apply ParallelSort_split.
  - apply recursive_call_decreases.
  - apply nested_budget.
  - apply recursive_call_wf.
  - apply ParallelSort_never_spins.
  - intros sort_Slice less Hlength data p.
    destruct (ParallelSort_run sort_Slice less Hlength (λ _ _, True))
      with (data := data) (p := p) as (out & Hrun & Hout & _); try done.
    by exists out.
Qed.

End SafetyClaims.

Lemma ParallelSort_safe_witness :
  (∀ temp mid st,
     merge_inv temp mid st → ms_i st < mid → ms_j st < len (ms_data st) →
     0 ≤ ms_i st < len temp ∧ 0 ≤ ms_j st < len temp ∧
     0 ≤ ms_k st < len (ms_data st) ∧
     ∃ st', merge_body (λ _ _ : Z, true) temp st = Done st' ∧
       merge_inv temp mid st' ∧
       ms_k st' = ms_k st + 1 ∧
       (remaining temp mid st' < remaining temp mid st)%nat) ∧
  (∀ data mid,
     0 ≤ mid ≤ len data →
     merge_inv data mid (MState data 0 mid 0) ∧
     ∃ out, merge (λ _ _ : Z, true) data mid = Done out ∧
       length out = length data) ∧
  (∀ data (parallelism : Z), ∃ out,
     ParallelSort insertion_Slice (λ _ _ : Z, true) data parallelism = Done out ∧
     length out = length data).
Proof.
  apply (ParallelSort_safe insertion_Slice (λ _ _ : Z, true)).
  intros l cmp. apply Permutation_length, insertion_Slice_permutes.
Defined.

Lemma ParallelSort_recursion_witness :
  ∃ out,
    ParallelSort insertion_Slice (λ _ _ : Z, true) (reverse (seqZ 0 2000)) 8 =
      Done out ∧
    length out = length (reverse (seqZ 0 2000)).
Proof.
  apply (proj2 (proj2 (proj2 (proj2 (proj2 (proj2
           (@ParallelSort_recursion Z))))))).
  intros l cmp. apply Permutation_length, insertion_Slice_permutes.
Defined.

(** ** Further properties of merge and IsSorted *)

Section MoreProperties.
Context {T : Type} (less : T → T → bool).
Implicit Types (data : list T) (mid : Z).

(** X1 (what merge computes).  For a split point within the slice and any
    comparator, [merge] returns with the slice holding the two-way merge of
    its halves [data[:mid]] and [data[mid:]], a rearrangement of the slice
    of the same length. *)
Theorem merge_computes data mid :
  0 ≤ mid ≤ len data →
  ∃ out,
    merge less data mid = Done out ∧
    out = merge_lists less (take (Z.to_nat mid) data) (drop (Z.to_nat mid) data) ∧
    out ≡ₚ data ∧ length out = length data.
Proof.
  intros Hmid. eexists. split_and!; [by apply merge_correct|done|..].
  - by rewrite merge_lists_perm, take_drop.
  - by rewrite merge_lists_length, <- length_app, take_drop.
Qed.

(** X2 (merge beyond the end).  With a split point past the end of the
    slice, [merge] panics with an index out of range: its second loop reads
    [temp[len(data)]]. *)
Theorem merge_panics_beyond_end data mid :
  len data < mid → merge less data mid = IndexPanic.
Proof. apply merge_mid_beyond_end. Qed.

(** X3 (IsSorted).  [IsSorted] returns true exactly when no adjacent pair
    of positions is out of order: [less(data[i+1], data[i])] is false for
    every [i]. *)
Theorem IsSorted_adjacent data :
  IsSorted less data = true ↔
  ∀ (i : nat) x y, data !! i = Some x → data !! S i = Some y → less y x = false.
Proof. by rewrite IsSorted_Sorted, Sorted_adjacent. Qed.

End MoreProperties.

Lemma merge_computes_witness :
  ∃ out,
    merge Z.ltb [5; 6; 1; 2] 2 = Done out ∧
    out = merge_lists Z.ltb (take (Z.to_nat 2) [5; 6; 1; 2])
                            (drop (Z.to_nat 2) [5; 6; 1; 2]) ∧
    out ≡ₚ [5; 6; 1; 2] ∧ length out = length [5; 6; 1; 2].
Proof.
  apply (merge_computes Z.ltb [5; 6; 1; 2] 2).
  unfold len. simpl. lia.
Defined.

Lemma merge_panics_beyond_end_witness : merge Z.ltb [1; 2] 3 = IndexPanic.
Proof.
  apply (merge_panics_beyond_end Z.ltb [1; 2] 3).
  unfold len. simpl. lia.
Defined.

(** * BinarySearch *)

Section SearchFacts.
Context {T : Type} (less : T → T → bool).
Implicit Types (data : list T) (target : T) (low high mid idx : Z).

Lemma midpoint_between low high :
  low ≤ high → low ≤ low + (high - low) `quot` 2 ≤ high.
Proof.
  intros Hle.
  assert (0 ≤ (high - low) `quot` 2) by (apply Z.quot_pos; lia).
  assert ((high - low) `quot` 2 ≤ high - low)
    by (apply Z.quot_le_upper_bound; lia).
  lia.
Qed.

(** The search loop, for a property [I] of the bounds that each narrowing
    keeps: the loop returns within its budget; a hit is a slot between the
    bounds whose element is equal to the target under the ordering; a miss
    is reached with the bounds crossed, [I] still holding. *)
Lemma search_loop_run (I : Z → Z → Prop) data target :
  (∀ low high mid x,
     I low high → low ≤ mid ≤ high → data !! Z.to_nat mid = Some x →
     less x target = true → I (mid + 1) high) →
  (∀ low high mid x,
     I low high → low ≤ mid ≤ high → data !! Z.to_nat mid = Some x →
     less target x = true → I low (mid - 1)) →
  ∀ budget low high,
    0 ≤ low → high < len data → low ≤ high + 1 →
    (Z.to_nat (high + 1 - low) < budget)%nat →
    I low high →
    ∃ idx found,
      search_loop less budget data target low high = Done (idx, found) ∧
      low ≤ idx ≤ high + 1 ∧
      (found = true →
       idx ≤ high ∧ ∃ x, data !! Z.to_nat idx = Some x ∧ tied less x target) ∧
      (found = false → I idx (idx - 1)).
Proof.
  intros Hup Hdown budget.
  induction budget as [|budget IH]; intros low high Hlow Hhigh Hcross Hb HI; [lia|].
  simpl. destruct (decide (low ≤ high)) as [Hle|Hgt].
  - rewrite (bool_decide_eq_true_2 _ Hle).
    pose proof (midpoint_between low high Hle) as Hmid.
    set (mid := low + (high - low) `quot` 2) in *.
    destruct (load_exists data mid) as (x & Hx & ->); [lia|]. exec_simpl.
    destruct (less x target) eqn:Hxt; [|destruct (less target x) eqn:Htx].
    + destruct (IH (mid + 1) high) as (idx & found & -> & ? & Hhit & Hmiss);
        [lia..|by eapply Hup|].
      exists idx, found. split_and!; [done|lia..|done|done].
    + destruct (IH low (mid - 1)) as (idx & found & -> & ? & Hhit & Hmiss);
        [lia..|by eapply Hdown|].
      exists idx, found. split_and!; [done|lia..| |done].
      intros Hf. destruct (Hhit Hf) as [? ?]. split; [lia|done].
    + exists mid, true. split_and!; [done|lia..| |done].
      intros _. split; [lia|]. by exists x.
  - rewrite (bool_decide_eq_false_2 _ Hgt).
    exists low, false. split_and!; [done|lia..|done|].
    intros _. by replace (low - 1) with high by lia.
Qed.

Section SortedSearch.
Hypothesis Hless : StrictWeakOrder less.

Lemma less_trans_not_after (a b c : T) :
  less a b = true → not_after less b c → less a c = true.
Proof.
  unfold not_after. intros Hab Hbc.
  destruct (less a c) eqn:Hac; [done|].
  by rewrite (swo_negatively_transitive _ Hless a c b Hac Hbc) in Hab.
Qed.

(** In an ordered slice nothing before a slot sorts after its element, and
    nothing behind it sorts before. *)
Lemma sorted_around data (i : nat) (x : T) :
  StronglySorted (not_after less) data → data !! i = Some x →
  Forall (λ y, not_after less y x) (take i data) ∧
  Forall (not_after less x) (drop (S i) data).
Proof.
  intros Hs Hx. rewrite <- (take_drop_middle data i x Hx) in Hs.
  apply StronglySorted_app in Hs as (Hcross & _ & Htail).
  apply StronglySorted_cons in Htail as [Htail _].
  split; [|done]. apply Forall_forall. intros y Hy.
  apply Hcross; [done|]. apply list_elem_of_here.
Qed.

(** On an ordered slice a miss comes with the slice split at the returned
    index: what is before sorts before the target, what is from there on
    sorts after it. *)
Lemma BinarySearch_split data target :
  IsSorted less data = true →
  ∃ idx found,
    BinarySearch less data target = Done (idx, found) ∧
    0 ≤ idx ≤ len data ∧
    (found = true →
     idx < len data ∧ ∃ x, data !! Z.to_nat idx = Some x ∧ tied less x target) ∧
    (found = false →
     Forall (λ y, less y target = true) (take (Z.to_nat idx) data) ∧
     Forall (λ y, less target y = true) (drop (Z.to_nat idx) data)).
Proof.
  intros Hs%IsSorted_Sorted%(Sorted_strongly less Hless).
  destruct (search_loop_run
    (λ low high, 0 ≤ low ∧ -1 ≤ high ∧
       Forall (λ y, less y target = true) (take (Z.to_nat low) data) ∧
       Forall (λ y, less target y = true) (drop (Z.to_nat (high + 1)) data))
    data target) with (budget := S (length data)) (low := 0) (high := len data - 1)
    as (idx & found & Hrun & Hidx & Hhit & Hmiss).
  - intros low high mid x (Hlow & Hhigh & _ & Hafter) Hmid Hx Hxt.
    split_and!; [lia|done| |done].
    destruct (sorted_around data _ x Hs Hx) as [Hbefore _].
    replace (Z.to_nat (mid + 1)) with (S (Z.to_nat mid)) by lia.
    rewrite (take_S_r _ _ _ Hx). apply Forall_app. split.
    + eapply Forall_impl; [exact Hbefore|]. intros y Hy.
      by apply (less_not_after_trans less Hless y x).
    + by repeat constructor.
  - intros low high mid x (Hlow & Hhigh & Hbefore & _) Hmid Hx Htx.
    split_and!; [done|lia|done|].
    destruct (sorted_around data _ x Hs Hx) as [_ Hafter].
    replace (Z.to_nat (mid - 1 + 1)) with (Z.to_nat mid) by lia.
    rewrite (drop_S _ _ _ Hx). constructor; [done|].
    eapply Forall_impl; [exact Hafter|]. intros y Hy.
    by apply (less_trans_not_after target x).
  - done.
  - lia.
  - unfold len. lia.
  - unfold len. lia.
  - split_and!; [done|unfold len; lia|by rewrite take_0|].
    unfold len. replace (Z.to_nat _) with (length data) by lia.
    by rewrite drop_all.
  - exists idx, found. split_and!; [done|lia|lia| |].
    + intros Hf. destruct (Hhit Hf) as [? ?]. split; [lia|done].
    + intros Hf. destruct (Hmiss Hf) as (_ & _ & ? & Hafter).
      split; [done|]. by replace (idx - 1 + 1) with idx in Hafter by lia.
Qed.

End SortedSearch.

(** X4 (BinarySearch is safe).  Whatever the comparator and whatever the
    order of the slice, [BinarySearch] returns without reading outside the
    slice; the index it returns lies between [0] and [len(data)]; and when
    it reports a hit, the index is a slot of the slice whose element
    neither sorts before the target nor after it. *)
Theorem BinarySearch_safe data target :
  ∃ idx found,
    BinarySearch less data target = Done (idx, found) ∧
    0 ≤ idx ≤ len data ∧
    (found = true →
     idx < len data ∧ ∃ x, data !! Z.to_nat idx = Some x ∧ tied less x target).
Proof.
  destruct (search_loop_run (λ _ _, True) data target)
    with (budget := S (length data)) (low := 0) (high := len data - 1)
    as (idx & found & Hrun & Hidx & Hhit & _);
    [done|done|lia|lia|unfold len; lia|unfold len; lia|done|].
  exists idx, found. split_and!; [done|lia|lia|].
  intros Hf. destruct (Hhit Hf) as [? ?]. split; [lia|done].
Qed.

(** X5 (BinarySearch on an ordered slice).  For a strict weak ordering and
    a slice in order, [BinarySearch] reports a hit exactly when the slice
    holds an element equal to the target under the ordering; on a miss,
    every element before the returned index sorts before the target and
    every element from there on sorts after it. *)
Theorem BinarySearch_sorted data target :
  StrictWeakOrder less → IsSorted less data = true →
  ∃ idx found,
    BinarySearch less data target = Done (idx, found) ∧
    (found = true ↔ ∃ x, x ∈ data ∧ tied less x target) ∧
    (found = false →
     Forall (λ y, less y target = true) (take (Z.to_nat idx) data) ∧
     Forall (λ y, less target y = true) (drop (Z.to_nat idx) data)).
Proof.
  intros Hless Hs.
  destruct (BinarySearch_split Hless data target Hs)
    as (idx & found & Hrun & Hidx & Hhit & Hmiss).
  exists idx, found. split_and!; [done| |done].
  split.
  - intros Hf. destruct (Hhit Hf) as (_ & x & Hx & Htied).
    exists x. split; [by eapply list_elem_of_lookup_2|done].
  - intros (x & Hx & Hxt & Htx). destruct found; [done|].
    destruct (Hmiss eq_refl) as [Hbefore Hafter].
    rewrite <- (take_drop (Z.to_nat idx) data) in Hx.
    rewrite Forall_forall in Hbefore, Hafter.
    apply elem_of_app in Hx as [Hx|Hx].
    + by rewrite (Hbefore x Hx) in Hxt.
    + by rewrite (Hafter x Hx) in Htx.
Qed.

(** X6 (the returned index is an insertion point).  For a strict weak
    ordering and a slice in order, inserting the target at the index that
    [BinarySearch] returns, hit or miss, gives a slice in order. *)
Theorem BinarySearch_insertion_point data target :
  StrictWeakOrder less → IsSorted less data = true →
  ∃ idx found,
    BinarySearch less data target = Done (idx, found) ∧
    0 ≤ idx ≤ len data ∧
    IsSorted less
      (take (Z.to_nat idx) data ++ target :: drop (Z.to_nat idx) data) = true.
Proof.
  intros Hless Hs.
  destruct (BinarySearch_split Hless data target Hs)
    as (idx & found & Hrun & Hidx & Hhit & Hmiss).
  exists idx, found. split_and!; [done|lia|lia|].
  apply IsSorted_Sorted in Hs. apply (Sorted_strongly less Hless) in Hs.
  apply IsSorted_Sorted, StronglySorted_Sorted.
  assert (Forall (λ y, not_after less y target) (take (Z.to_nat idx) data) ∧
          Forall (not_after less target) (drop (Z.to_nat idx) data))
    as [Hbefore Hafter].
  { destruct found.
    - destruct (Hhit eq_refl) as (_ & x & Hx & Hxt & Htx).
      destruct (sorted_around data _ x Hs Hx) as [Hb Ha].
      split.
      + eapply Forall_impl; [exact Hb|]. intros y Hy.
        by apply (not_after_trans less Hless y x target).
      + rewrite (drop_S _ _ _ Hx). constructor; [done|].
        eapply Forall_impl; [exact Ha|]. intros y Hy.
        by apply (not_after_trans less Hless target x y).
    - destruct (Hmiss eq_refl) as [Hb Ha]. split.
      + eapply Forall_impl; [exact Hb|]. intros y Hy.
        by apply (swo_asymmetric less Hless).
      + eapply Forall_impl; [exact Ha|]. intros y Hy.
        by apply (swo_asymmetric less Hless). }
  rewrite <- (take_drop (Z.to_nat idx) data) in Hs.
  apply StronglySorted_app in Hs as (Hcross & Hl & Hr).
  apply StronglySorted_app_2; [|done|by constructor].
  intros x1 x2 Hx1 [->|Hx2]%elem_of_cons.
  - rewrite Forall_forall in Hbefore. by apply Hbefore.
  - by apply Hcross.
Qed.

End SearchFacts.

Lemma BinarySearch_sorted_witness :
  ∃ idx found,
    BinarySearch Z.ltb [1; 3; 5; 7] 4 = Done (idx, found) ∧
    (found = true ↔ ∃ x, x ∈ [1; 3; 5; 7] ∧ tied Z.ltb x 4) ∧
    (found = false →
     Forall (λ y, (y <? 4) = true) (take (Z.to_nat idx) [1; 3; 5; 7]) ∧
     Forall (λ y, (4 <? y) = true) (drop (Z.to_nat idx) [1; 3; 5; 7])).
Proof.
  apply (BinarySearch_sorted Z.ltb [1; 3; 5; 7] 4).
  - apply Zltb_StrictWeakOrder.
  - reflexivity.
Defined.

Lemma BinarySearch_insertion_point_witness :
  ∃ idx found,
    BinarySearch Z.ltb [1; 3; 5; 7] 4 = Done (idx, found) ∧
    0 ≤ idx ≤ len [1; 3; 5; 7] ∧
    IsSorted Z.ltb
      (take (Z.to_nat idx) [1; 3; 5; 7] ++ 4 :: drop (Z.to_nat idx) [1; 3; 5; 7])
      = true.
Proof.
  apply (BinarySearch_insertion_point Z.ltb [1; 3; 5; 7] 4).
  - apply Zltb_StrictWeakOrder.
  - reflexivity.
Defined.

(** * Deduplicate *)

(** ** The first element of every run *)

Section RunHeadFacts.
Context {T : Type} (ne : T → T → bool).
Implicit Types (l : list T) (x y prev : T).

Lemma changes_snoc prev l x :
  changes ne prev (l ++ [x]) =
  changes ne prev l ++ (if ne x (default prev (last l)) then [x] else []).
Proof.
  revert prev. induction l as [|y l IH]; intros prev; simpl.
  { by destruct (ne x prev). }
  assert (default prev (last (y :: l)) = default y (last l)) as ->
    by (rewrite last_cons; by destruct (last l)).
  destruct (ne y prev); by rewrite IH.
Qed.

Lemma run_heads_snoc l x y :
  last l = Some y →
  run_heads ne (l ++ [x]) = run_heads ne l ++ (if ne x y then [x] else []).
Proof.
  destruct l as [|z l]; [done|]. intros Hlast. simpl.
  rewrite changes_snoc. do 2 f_equal.
  assert (default z (last l) = y) as ->; [|done].
  destruct l; simpl in *; [congruence|by rewrite Hlast].
Qed.

Lemma changes_sublist prev l : changes ne prev l `sublist_of` l.
Proof.
  revert prev. induction l as [|y l IH]; intros prev; simpl; [done|].
  destruct (ne y prev); [apply sublist_skip|apply sublist_cons]; apply IH.
Qed.

Lemma run_heads_sublist l : run_heads ne l `sublist_of` l.
Proof. destruct l; [done|]. apply sublist_skip, changes_sublist. Qed.

Lemma changes_fixed prev l :
  Sorted (λ a b, ne b a = true) (prev :: l) → changes ne prev l = l.
Proof.
  revert prev. induction l as [|y l IH]; intros prev Hs; [done|].
  apply Sorted_inv in Hs as [Hs Hhd]. apply HdRel_inv in Hhd. simpl.
  rewrite Hhd. by rewrite IH.
Qed.

Lemma run_heads_fixed l :
  Sorted (λ a b, ne b a = true) l → run_heads ne l = l.
Proof. destruct l; [done|]. intros Hs. simpl. by rewrite changes_fixed. Qed.

Lemma adjacent_Sorted (R : relation T) l :
  Sorted R l ↔
  ∀ (k : nat) x y, l !! k = Some x → l !! S k = Some y → R x y.
Proof.
  split.
  - induction 1 as [|x l Hs IH Hhd]; intros k a b Ha Hb; [done|].
    destruct k as [|k]; simpl in *; [|by eapply IH].
    destruct Hhd as [|y l Hxy]; [done|]. simpl in *. congruence.
  - induction l as [|x l IH]; intros Hadj; constructor.
    + apply IH. intros k a b Ha Hb. by apply (Hadj (S k)).
    + destruct l as [|y l]; constructor. by apply (Hadj 0%nat).
Qed.

End RunHeadFacts.

Section ValueRunHeads.
Context {T : Type} `{EqDecision T}.
Implicit Types (l : list T) (x y prev : T).

Lemma changes_elem_of prev l x :
  x ∈ l → x = prev ∨ x ∈ changes unequal prev l.
Proof.
  revert prev. induction l as [|y l IH]; intros prev; [by intros ?%elem_of_nil|].
  cbn [changes]. unfold unequal at 1.
  intros [->|Hx]%elem_of_cons; destruct (decide (y = prev)) as [->|Hne].
  - by left.
  - rewrite bool_decide_eq_true_2 by done. right. apply list_elem_of_here.
  - rewrite bool_decide_eq_false_2 by (by intros ?). by apply IH.
  - rewrite bool_decide_eq_true_2 by done. right.
    destruct (IH y Hx) as [->|Hin];
      [apply list_elem_of_here|by apply list_elem_of_further].
Qed.

Lemma run_heads_elem_of l x : x ∈ run_heads unequal l ↔ x ∈ l.
Proof.
  split; [apply sublist_subseteq, run_heads_sublist|].
  destruct l as [|y l]; [done|].
  intros [->|Hx]%elem_of_cons; simpl; [apply list_elem_of_here|].
  destruct (changes_elem_of y l x Hx) as [->|?];
    [apply list_elem_of_here|by apply list_elem_of_further].
Qed.

Lemma changes_distinct prev l : Sorted (≠) (prev :: changes unequal prev l).
Proof.
  revert prev. induction l as [|y l IH]; intros prev.
  { by repeat constructor. }
  cbn [changes]. unfold unequal at 1.
  destruct (decide (y = prev)) as [->|Hne].
  - rewrite bool_decide_eq_false_2 by (by intros ?). apply IH.
  - rewrite bool_decide_eq_true_2 by done.
    constructor; [apply IH|]. constructor. congruence.
Qed.

Lemma run_heads_distinct l : Sorted (≠) (run_heads unequal l).
Proof. destruct l; [constructor|apply changes_distinct]. Qed.

Lemma distinct_told_apart l :
  Sorted (≠) l → Sorted (λ a b, unequal b a = true) l.
Proof.
  induction 1 as [|x l Hs IH Hhd]; constructor; [done|].
  destruct Hhd as [|y l Hxy]; constructor.
  unfold unequal. apply bool_decide_eq_true_2. congruence.
Qed.

End ValueRunHeads.

(** ** The loop *)

Section DedupFacts.
Context {T : Type} (differs : T → T → option bool) (ne : T → T → bool).
Implicit Types (data out l : list T) (x y prev : T) (i j n : Z).

(** While every comparison of an element of the slice with the one before
    it returns, with the verdict of [ne]. *)
Lemma dedup_loop_run budget data d i j :
  (∀ (k : nat) x y,
     data !! k = Some x → data !! S k = Some y → differs y x = Some (ne y x)) →
  1 ≤ j ≤ i → i ≤ len data → length d = length data →
  take (Z.to_nat j) d = run_heads ne (take (Z.to_nat i) data) →
  drop (Z.to_nat j) d = drop (Z.to_nat j) data →
  d !! Z.to_nat (i - 1) = data !! Z.to_nat (i - 1) →
  (Z.to_nat (len data - i) < budget)%nat →
  ∃ out n,
    dedup_loop differs budget d i j = Done (out, n) ∧
    j ≤ n ≤ len data ∧ length out = length data ∧
    take (Z.to_nat n) out = run_heads ne data ∧
    drop (Z.to_nat n) out = drop (Z.to_nat n) data.
Proof.
  intros Hcmp. revert d i j.
  induction budget as [|budget IH];
    intros d i j Hj Hi Hlen Hkept Hrest Hprev Hb; [lia|].
  assert (Hlen' : len d = len data) by (unfold len; congruence).
  simpl. destruct (decide (i < len d)) as [Hlt|Hge].
  - rewrite (bool_decide_eq_true_2 _ Hlt).
    destruct (load_exists data i) as (x & Hx & _); [lia|].
    destruct (load_exists data (i - 1)) as (y & Hy & _); [lia|].
    assert (Hdx : d !! Z.to_nat i = Some x).
    { apply (f_equal (.!! (Z.to_nat i - Z.to_nat j)%nat)) in Hrest.
      rewrite !lookup_drop in Hrest.
      replace (Z.to_nat j + (Z.to_nat i - Z.to_nat j))%nat
        with (Z.to_nat i) in Hrest by lia.
      congruence. }
    assert (Hdy : d !! Z.to_nat (i - 1) = Some y) by congruence.
    rewrite (load_in_range d i x), (load_in_range d (i - 1) y) by (done || lia).
    exec_simpl.
    assert (Hxy : differs x y = Some (ne x y)).
    { apply (Hcmp (Z.to_nat (i - 1))); [done|].
      by replace (S (Z.to_nat (i - 1))) with (Z.to_nat i) by lia. }
    unfold not_equal. rewrite Hxy. exec_simpl.
    assert (Hnext : run_heads ne (take (Z.to_nat (i + 1)) data) =
      run_heads ne (take (Z.to_nat i) data) ++ (if ne x y then [x] else [])).
    { replace (Z.to_nat (i + 1)) with (S (Z.to_nat i)) by lia.
      rewrite (take_S_r _ _ _ Hx). apply run_heads_snoc.
      rewrite last_lookup, length_take, lookup_take_lt by (unfold len in *; lia).
      replace (Init.Nat.pred (Z.to_nat i `min` length data))
        with (Z.to_nat (i - 1)) by (unfold len in *; lia).
      done. }
    assert (Hrest' : drop (Z.to_nat (j + 1)) d = drop (Z.to_nat (j + 1)) data).
    { replace (Z.to_nat (j + 1)) with (Z.to_nat j + 1)%nat by lia.
      by rewrite <- !drop_drop, Hrest. }
    replace (i + 1 - 1) with i in IH by lia.
    destruct (ne x y).
    + destruct (decide (i = j)) as [->|Hij].
      * rewrite (bool_decide_eq_false_2 (j ≠ j)) by (by intros ?). exec_simpl.
        destruct (IH d (j + 1) (j + 1)) as (out & n & -> & ? & ? & ? & ?);
          [lia|lia|done| |done| |lia|].
        -- rewrite Hnext, <- Hkept.
           replace (Z.to_nat (j + 1)) with (S (Z.to_nat j)) by lia.
           by apply take_S_r.
        -- replace (j + 1 - 1) with j by lia. congruence.
        -- exists out, n. split_and!; [done|lia..|done|done|done].
      * rewrite (bool_decide_eq_true_2 (i ≠ j)) by done. exec_simpl.
        rewrite store_in_range by lia. exec_simpl.
        destruct (IH (<[Z.to_nat j := x]> d) (i + 1) (j + 1))
          as (out & n & -> & ? & ? & ? & ?);
          [lia|lia|by rewrite length_insert| | | |lia|].
        -- rewrite write_prefix by lia. by rewrite Hnext, Hkept.
        -- apply write_tail; [lia|done].
        -- replace (i + 1 - 1) with i by lia.
           rewrite list_lookup_insert_ne by lia. congruence.
        -- exists out, n. split_and!; [done|lia..|done|done|done].
    + destruct (IH d (i + 1) j) as (out & n & -> & ? & ? & ? & ?);
        [lia|lia|done| |done| |lia|].
      * by rewrite Hnext, app_nil_r.
      * replace (i + 1 - 1) with i by lia. congruence.
      * exists out, n. split_and!; [done|lia..|done|done|done].
  - rewrite (bool_decide_eq_false_2 _ Hge).
    exists d, j. split_and!; [done|lia..|done| |done].
    rewrite Hkept. f_equal. apply take_ge. unfold len in *. lia.
Qed.

(** What [Deduplicate] returns and how it leaves the slice, when the
    comparisons it makes return. *)
Lemma Deduplicate_run data :
  (∀ (k : nat) x y,
     data !! k = Some x → data !! S k = Some y → differs y x = Some (ne y x)) →
  ∃ out n,
    Deduplicate differs data = Done (out, n) ∧
    0 ≤ n ≤ len data ∧ (data ≠ [] → 1 ≤ n) ∧
    length out = length data ∧
    take (Z.to_nat n) out = run_heads ne data ∧
    drop (Z.to_nat n) out = drop (Z.to_nat n) data.
Proof.
  intros Hcmp. unfold Deduplicate. case_bool_decide as Hshort.
  - exists data, (len data). unfold len in *.
    rewrite Nat2Z.id, firstn_all.
    split_and!; [done|lia|lia| |done| |done].
    + destruct data; [done|]. simpl. lia.
    + by destruct data as [|x [|y l]]; [..|simpl in Hshort; lia].
  - destruct data as [|x data]; [unfold len in Hshort; simpl in Hshort; lia|].
    destruct (dedup_loop_run (S (length (x :: data))) (x :: data) (x :: data) 1 1)
      as (out & n & Hrun & ? & ? & ? & ?);
      [done|lia|unfold len; simpl; lia|done|done|done|done|unfold len; lia|].
    exists out, n. split_and!; [done|lia|lia| |done..]. lia.
Qed.

(** From a comparison that panics on: the loop reaches it, whatever the
    comparisons before it yield, and panics there or before. *)
Lemma dedup_loop_panics budget data d i j (k : nat) x y :
  data !! k = Some x → data !! S k = Some y → differs y x = None →
  1 ≤ j ≤ i → (Z.to_nat i ≤ S k)%nat →
  length d = length data →
  drop (Z.to_nat j) d = drop (Z.to_nat j) data →
  d !! Z.to_nat (i - 1) = data !! Z.to_nat (i - 1) →
  (Z.to_nat (len data - i) < budget)%nat →
  dedup_loop differs budget d i j = ComparePanic.
Proof.
  intros Hx Hy Hnone. revert d i j.
  induction budget as [|budget IH];
    intros d i j Hj Hi Hlen Hrest Hprev Hb; [lia|].
  apply lookup_lt_Some in Hy as Hk.
  assert (Hlen' : len d = len data) by (unfold len; congruence).
  assert (Hlt : i < len d) by (unfold len in *; lia).
  simpl. rewrite (bool_decide_eq_true_2 _ Hlt).
  destruct (load_exists data i) as (xi & Hxi & _); [lia|].
  destruct (load_exists data (i - 1)) as (yi & Hyi & _); [lia|].
  assert (Hdx : d !! Z.to_nat i = Some xi).
  { apply (f_equal (.!! (Z.to_nat i - Z.to_nat j)%nat)) in Hrest.
    rewrite !lookup_drop in Hrest.
    replace (Z.to_nat j + (Z.to_nat i - Z.to_nat j))%nat
      with (Z.to_nat i) in Hrest by lia.
    congruence. }
  assert (Hdy : d !! Z.to_nat (i - 1) = Some yi) by congruence.
  rewrite (load_in_range d i xi), (load_in_range d (i - 1) yi) by (done || lia).
  exec_simpl. unfold not_equal.
  destruct (decide (Z.to_nat i = S k)) as [Hik|Hik].
  - rewrite Hik in Hxi. replace (Z.to_nat (i - 1)) with k in Hyi by lia.
    assert (xi = y) as -> by congruence. assert (yi = x) as -> by congruence.
    by rewrite Hnone.
  - assert (Hrest' : drop (Z.to_nat (j + 1)) d = drop (Z.to_nat (j + 1)) data).
    { replace (Z.to_nat (j + 1)) with (Z.to_nat j + 1)%nat by lia.
      by rewrite <- !drop_drop, Hrest. }
    destruct (differs xi yi) as [[|]|]; [| |done]; exec_simpl.
    + destruct (decide (i = j)) as [->|Hij].
      * rewrite (bool_decide_eq_false_2 (j ≠ j)) by (by intros ?). exec_simpl.
        apply IH; [lia|lia|done|done| |lia].
        replace (j + 1 - 1) with j by lia. congruence.
      * rewrite (bool_decide_eq_true_2 (i ≠ j)) by done. exec_simpl.
        rewrite store_in_range by lia. exec_simpl.
        apply IH; [lia|lia|by rewrite length_insert| | |lia].
        -- apply write_tail; [lia|done].
        -- replace (i + 1 - 1) with i by lia.
           rewrite list_lookup_insert_ne by lia. congruence.
    + apply IH; [lia|lia|done|done| |lia].
      replace (i + 1 - 1) with i by lia. congruence.
Qed.

(** X7 (what Deduplicate keeps).  When every comparison [!=] of an element
    of the slice with the one before it returns, [Deduplicate] returns,
    without reading or writing outside the slice.  The count [n] it returns
    lies between [0] and [len(data)] and is at least [1] for a slice that
    is not empty; the slice keeps its length; its first [n] slots hold, in
    order, the first element and every later element that [!=] tells from
    the one before it; and the slots from [n] on are as they were. *)
Theorem Deduplicate_keeps_run_heads data :
  (∀ (k : nat) x y,
     data !! k = Some x → data !! S k = Some y → differs y x = Some (ne y x)) →
  ∃ out n,
    Deduplicate differs data = Done (out, n) ∧
    0 ≤ n ≤ len data ∧ (data ≠ [] → 1 ≤ n) ∧
    length out = length data ∧
    take (Z.to_nat n) out = run_heads ne data ∧
    drop (Z.to_nat n) out = drop (Z.to_nat n) data.
Proof. apply Deduplicate_run. Qed.

End DedupFacts.

Section DedupOutcomes.
Context {T : Type} (differs : T → T → option bool).
Implicit Types (data out l : list T) (x y : T).

(** A slice in which every element is told from the one before it is left
    as it is. *)
Lemma Deduplicate_keeps_all data :
  (∀ (k : nat) x y,
     data !! k = Some x → data !! S k = Some y → differs y x = Some true) →
  Deduplicate differs data = Done (data, len data).
Proof.
  intros Hdiffer.
  destruct (Deduplicate_run differs (λ _ _, true) data Hdiffer)
    as (out & n & -> & Hn & _ & Hlen & Hkept & _).
  rewrite run_heads_fixed in Hkept by (by apply adjacent_Sorted).
  assert (n = len data) as ->.
  { apply (f_equal length) in Hkept. rewrite length_take in Hkept.
    unfold len in *. lia. }
  unfold len in Hkept. rewrite Nat2Z.id, <- Hlen, firstn_all in Hkept.
  by rewrite Hkept.
Qed.

(** X9 (nothing to remove).  On a slice in which [!=] tells every element
    from the one before it, [Deduplicate] writes nothing and returns the
    length of the slice. *)
Theorem Deduplicate_nothing_to_do data :
  (∀ (k : nat) x y,
     data !! k = Some x → data !! S k = Some y → differs y x = Some true) →
  Deduplicate differs data = Done (data, len data).
Proof. apply Deduplicate_keeps_all. Qed.

(** X19 (a comparison that panics).  When the comparison [!=] of some
    element of the slice with the one before it panics, [Deduplicate]
    panics, whatever the other comparisons yield. *)
Theorem Deduplicate_comparison_panics data (k : nat) x y :
  data !! k = Some x → data !! S k = Some y → differs y x = None →
  Deduplicate differs data = ComparePanic.
Proof.
  intros Hx Hy Hnone. apply lookup_lt_Some in Hy as Hk.
  unfold Deduplicate. rewrite bool_decide_eq_false_2 by (unfold len; lia).
  apply (dedup_loop_panics differs _ data data 1 1 k x y);
    [done|done|done|lia|lia|done|done|done|unfold len; lia].
Qed.

End DedupOutcomes.

Section DedupValues.
Context {T : Type} `{EqDecision T} (differs : T → T → option bool).
Implicit Types (data out l : list T) (x y : T).

(** X8 (the kept prefix).  When [!=] between each element of the slice and
    the one before it is inequality of values, the first [n] slots that
    [Deduplicate] leaves hold no two equal elements next to each other,
    hold exactly the values that occur in the input, and keep them in the
    order of the input (they are a subsequence of it). *)
Theorem Deduplicate_prefix data :
  (∀ (k : nat) x y,
     data !! k = Some x → data !! S k = Some y →
     differs y x = Some (bool_decide (y ≠ x))) →
  ∃ out n,
    Deduplicate differs data = Done (out, n) ∧
    (∀ (k : nat) x y,
       take (Z.to_nat n) out !! k = Some x →
       take (Z.to_nat n) out !! S k = Some y → x ≠ y) ∧
    (∀ x, x ∈ take (Z.to_nat n) out ↔ x ∈ data) ∧
    take (Z.to_nat n) out `sublist_of` data.
Proof.
  intros Hcmp.
  destruct (Deduplicate_run differs unequal data Hcmp)
    as (out & n & Hrun & _ & _ & _ & Hkept & _).
  exists out, n. rewrite Hkept. split_and!; [done| | |].
  - apply adjacent_Sorted, run_heads_distinct.
  - apply run_heads_elem_of.
  - apply run_heads_sublist.
Qed.

(** X10 (a second pass).  When [!=] on the elements of the slice is
    inequality of values, running [Deduplicate] again on the [n] slots it
    kept changes nothing and returns [n] again. *)
Theorem Deduplicate_idempotent data :
  (∀ x y, x ∈ data → y ∈ data → differs x y = Some (bool_decide (x ≠ y))) →
  ∃ out n,
    Deduplicate differs data = Done (out, n) ∧
    Deduplicate differs (take (Z.to_nat n) out) =
      Done (take (Z.to_nat n) out, n).
Proof.
  intros Hcmp.
  destruct (Deduplicate_run differs unequal data)
    as (out & n & Hrun & Hn & _ & Hlen & Hkept & _).
  { intros k x y Hx Hy. apply Hcmp; by eapply list_elem_of_lookup_2. }
  exists out, n. split; [done|].
  rewrite Hkept.
  assert (len (run_heads unequal data) = n) as <-.
  { rewrite <- Hkept. unfold len in *. rewrite length_take. lia. }
  apply Deduplicate_keeps_all. intros k x y Hx Hy.
  rewrite Hcmp by
    (eapply (sublist_subseteq _ data), list_elem_of_lookup_2;
       [apply run_heads_sublist|done]).
  f_equal. apply bool_decide_eq_true_2.
  pose proof (proj1 (adjacent_Sorted (≠) _) (run_heads_distinct data) k x y Hx Hy).
  congruence.
Qed.

End DedupValues.

Lemma Deduplicate_keeps_run_heads_witness :
  ∃ out n,
    Deduplicate float64_differs
      [PrimFloat.nan; PrimFloat.nan; PrimFloat.one; PrimFloat.one] =
      Done (out, n) ∧
    0 ≤ n ≤ len [PrimFloat.nan; PrimFloat.nan; PrimFloat.one; PrimFloat.one] ∧
    ([PrimFloat.nan; PrimFloat.nan; PrimFloat.one; PrimFloat.one] ≠ [] → 1 ≤ n) ∧
    length out =
      length [PrimFloat.nan; PrimFloat.nan; PrimFloat.one; PrimFloat.one] ∧
    take (Z.to_nat n) out =
      run_heads (λ x y, negb (PrimFloat.eqb x y))
        [PrimFloat.nan; PrimFloat.nan; PrimFloat.one; PrimFloat.one] ∧
    drop (Z.to_nat n) out =
      drop (Z.to_nat n)
        [PrimFloat.nan; PrimFloat.nan; PrimFloat.one; PrimFloat.one].
Proof.
  apply (Deduplicate_keeps_run_heads float64_differs
           (λ x y, negb (PrimFloat.eqb x y))
           [PrimFloat.nan; PrimFloat.nan; PrimFloat.one; PrimFloat.one]).
  intros k x y _ _. reflexivity.
Defined.

Lemma Deduplicate_nothing_to_do_witness :
  Deduplicate value_differs [3; 1; 3; 2] = Done ([3; 1; 3; 2], len [3; 1; 3; 2]).
Proof.
  apply (Deduplicate_nothing_to_do value_differs [3; 1; 3; 2]).
  intros [|[|[|[|k]]]] x y Hx Hy; simpl in *; try congruence;
    injection Hx as <-; injection Hy as <-; reflexivity.
Defined.

Lemma Deduplicate_comparison_panics_witness :
  Deduplicate any_differs [Int 1; Int 2; Ints [1]; Ints [1]; Int 3] =
  ComparePanic.
Proof.
  by apply (Deduplicate_comparison_panics any_differs
              [Int 1; Int 2; Ints [1]; Ints [1]; Int 3] 2 (Ints [1]) (Ints [1])).
Defined.

Lemma Deduplicate_prefix_witness :
  ∃ out n,
    Deduplicate value_differs [1; 1; 2; 1; 1] = Done (out, n) ∧
    (∀ (k : nat) x y,
       take (Z.to_nat n) out !! k = Some x →
       take (Z.to_nat n) out !! S k = Some y → x ≠ y) ∧
    (∀ x, x ∈ take (Z.to_nat n) out ↔ x ∈ [1; 1; 2; 1; 1]) ∧
    take (Z.to_nat n) out `sublist_of` [1; 1; 2; 1; 1].
Proof.
  apply (Deduplicate_prefix value_differs [1; 1; 2; 1; 1]).
  intros k x y _ _. reflexivity.
Defined.

Lemma Deduplicate_idempotent_witness :
  ∃ out n,
    Deduplicate value_differs [1; 1; 2; 1; 1] = Done (out, n) ∧
    Deduplicate value_differs (take (Z.to_nat n) out) =
      Done (take (Z.to_nat n) out, n).
Proof.
  apply (Deduplicate_idempotent value_differs [1; 1; 2; 1; 1]).
  intros x y _ _. reflexivity.
Defined.

(** * The functions together *)

Section OrderedDedup.
Context {T : Type} `{EqDecision T} (less : T → T → bool).
Implicit Types (data out l : list T).

Lemma StronglySorted_sublist (R : relation T) l1 l2 :
  l1 `sublist_of` l2 → StronglySorted R l2 → StronglySorted R l1.
Proof.
  induction 1 as [|x l1 l2 Hsub IH|x l1 l2 Hsub IH]; [done|..].
  - intros [Hall Hs]%StronglySorted_cons. constructor; [by apply IH|].
    rewrite Forall_forall in Hall |- *. intros y Hy.
    by apply Hall, (sublist_subseteq l1 l2).
  - intros [_ Hs]%StronglySorted_cons. by apply IH.
Qed.

(** In order, no two neighbours equal, and only equal values equal under
    the ordering: strictly ascending. *)
Lemma Sorted_strict l :
  (∀ x y, x ∈ l → y ∈ l → tied less x y → x = y) →
  Sorted (not_after less) l → Sorted (≠) l →
  Sorted (λ x y, less x y = true) l.
Proof.
  induction l as [|a l IH]; intros Hties Hord Hne; [constructor|].
  apply Sorted_inv in Hord as [Hord Hhd]. apply Sorted_inv in Hne as [Hne Hhd'].
  constructor.
  - apply IH; [|done..]. intros x y Hx Hy.
    apply Hties; by apply list_elem_of_further.
  - destruct Hhd as [|b l Hab]; constructor.
    apply HdRel_inv in Hhd'. destruct (less a b) eqn:Hlt; [done|].
    contradict Hhd'. apply Hties; [apply list_elem_of_here| |done].
    apply list_elem_of_further, list_elem_of_here.
Qed.

Lemma strict_NoDup l :
  StrictWeakOrder less →
  Sorted (λ x y, less x y = true) l → NoDup l.
Proof.
  intros Hless Hs. apply Sorted_StronglySorted in Hs.
  - induction Hs as [|a l Hs IH Hall]; constructor; [|done].
    intros Ha. rewrite Forall_forall in Hall.
    specialize (Hall a Ha). by rewrite (swo_irreflexive _ Hless) in Hall.
  - intros a b c. apply (swo_transitive _ Hless).
Qed.

(** What [Deduplicate] makes of a slice that is in order for an ordering
    under which only equal values are equal. *)
Lemma Deduplicate_of_sorted (differs : T → T → option bool) data :
  StrictWeakOrder less →
  IsSorted less data = true →
  (∀ x y, x ∈ data → y ∈ data → tied less x y → x = y) →
  (∀ (k : nat) x y,
     data !! k = Some x → data !! S k = Some y →
     differs y x = Some (bool_decide (y ≠ x))) →
  ∃ out n,
    Deduplicate differs data = Done (out, n) ∧
    NoDup (take (Z.to_nat n) out) ∧
    (∀ x, x ∈ take (Z.to_nat n) out ↔ x ∈ data) ∧
    (∀ (k : nat) x y,
       take (Z.to_nat n) out !! k = Some x →
       take (Z.to_nat n) out !! S k = Some y → less x y = true).
Proof.
  intros Hless Hs%IsSorted_Sorted%(Sorted_strongly less Hless) Hties Hcmp.
  destruct (Deduplicate_run differs unequal data Hcmp)
    as (out & n & Hrun & _ & _ & _ & Hkept & _).
  exists out, n. rewrite Hkept.
  assert (Sorted (λ x y, less x y = true) (run_heads unequal data)) as Hstrict.
  { apply Sorted_strict.
    - intros x y Hx Hy.
      apply Hties; by apply (proj1 (run_heads_elem_of _ _)).
    - apply StronglySorted_Sorted.
      apply (StronglySorted_sublist _ _ data); [apply run_heads_sublist|done].
    - apply run_heads_distinct. }
  split_and!; [done|by apply strict_NoDup|apply run_heads_elem_of|].
  by apply adjacent_Sorted.
Qed.

(** X11 (Deduplicate on an ordered slice).  When the slice is in order for
    a strict weak ordering under which only equal values are equal, and
    [!=] between each element and the one before it is inequality of
    values, the first [n] slots that [Deduplicate] leaves are strictly
    ascending, hold no value twice, and hold exactly the values of the
    input. *)
Theorem Deduplicate_sorted (differs : T → T → option bool) data :
  StrictWeakOrder less →
  IsSorted less data = true →
  (∀ x y, x ∈ data → y ∈ data → tied less x y → x = y) →
  (∀ (k : nat) x y,
     data !! k = Some x → data !! S k = Some y →
     differs y x = Some (bool_decide (y ≠ x))) →
  ∃ out n,
    Deduplicate differs data = Done (out, n) ∧
    NoDup (take (Z.to_nat n) out) ∧
    (∀ x, x ∈ take (Z.to_nat n) out ↔ x ∈ data) ∧
    (∀ (k : nat) x y,
       take (Z.to_nat n) out !! k = Some x →
       take (Z.to_nat n) out !! S k = Some y → less x y = true).
Proof. apply Deduplicate_of_sorted. Qed.

(** X12 (sort, then deduplicate).  After [ParallelSort] with a strict weak
    ordering under which only equal values are equal, and with [!=] on the
    elements of the slice inequality of values, [Deduplicate] leaves in its
    first [n] slots the distinct values of the original slice, each once,
    in strictly ascending order. *)
Theorem ParallelSort_then_Deduplicate
    (sort_Slice : list T → (T → T → bool) → list T)
    (differs : T → T → option bool) data (parallelism : Z) :
  (∀ l cmp, sort_Slice l cmp ≡ₚ l) →
  (∀ l cmp, StrictWeakOrder cmp → IsSorted cmp (sort_Slice l cmp) = true) →
  StrictWeakOrder less →
  (∀ x y, x ∈ data → y ∈ data → tied less x y → x = y) →
  (∀ x y, x ∈ data → y ∈ data → differs x y = Some (bool_decide (x ≠ y))) →
  ∃ sorted out n,
    ParallelSort sort_Slice less data parallelism = Done sorted ∧
    Deduplicate differs sorted = Done (out, n) ∧
    NoDup (take (Z.to_nat n) out) ∧
    (∀ x, x ∈ take (Z.to_nat n) out ↔ x ∈ data) ∧
    (∀ (k : nat) x y,
       take (Z.to_nat n) out !! k = Some x →
       take (Z.to_nat n) out !! S k = Some y → less x y = true).
Proof.
  intros Hperm Hsorts Hless Hties Hcmp.
  destruct (ParallelSort_sorted_perm sort_Slice less Hperm Hsorts Hless
              data parallelism) as (sorted & Hrun & Hsame & Hord).
  destruct (Deduplicate_of_sorted differs sorted Hless)
    as (out & n & Hdedup & Hnodup & Helems & Hasc).
  - by apply IsSorted_Sorted.
  - intros x y Hx Hy. rewrite Hsame in Hx, Hy. by apply Hties.
  - intros k x y Hx%list_elem_of_lookup_2 Hy%list_elem_of_lookup_2.
    rewrite Hsame in Hx, Hy. by apply Hcmp.
  - exists sorted, out, n. split_and!; try done.
    intros x. by rewrite Helems, Hsame.
Qed.

(** X13 (sort, then search).  After [ParallelSort] with a strict weak
    ordering, [BinarySearch] for any element of the original slice reports
    a hit, at a slot holding an element equal to it under the ordering. *)
Theorem ParallelSort_then_BinarySearch
    (sort_Slice : list T → (T → T → bool) → list T) data (parallelism : Z)
    (target : T) :
  (∀ l cmp, sort_Slice l cmp ≡ₚ l) →
  (∀ l cmp, StrictWeakOrder cmp → IsSorted cmp (sort_Slice l cmp) = true) →
  StrictWeakOrder less →
  target ∈ data →
  ∃ sorted idx x,
    ParallelSort sort_Slice less data parallelism = Done sorted ∧
    BinarySearch less sorted target = Done (idx, true) ∧
    sorted !! Z.to_nat idx = Some x ∧ tied less x target.
Proof.
  intros Hperm Hsorts Hless Hin.
  destruct (ParallelSort_sorted_perm sort_Slice less Hperm Hsorts Hless
              data parallelism) as (sorted & Hrun & Hsame & Hord).
  apply IsSorted_Sorted in Hord.
  destruct (BinarySearch_split less Hless sorted target Hord)
    as (idx & found & Hsearch & _ & Hhit & Hmiss).
  destruct found.
  - destruct (Hhit eq_refl) as (_ & x & Hx & Htied). by exists sorted, idx, x.
  - destruct (Hmiss eq_refl) as [Hbefore Hafter].
    rewrite <- Hsame, <- (take_drop (Z.to_nat idx) sorted) in Hin.
    rewrite Forall_forall in Hbefore, Hafter.
    apply elem_of_app in Hin as [Hin|Hin].
    + specialize (Hbefore _ Hin). by rewrite (swo_irreflexive _ Hless) in Hbefore.
    + specialize (Hafter _ Hin). by rewrite (swo_irreflexive _ Hless) in Hafter.
Qed.

End OrderedDedup.

Lemma Deduplicate_sorted_witness :
  ∃ out n,
    Deduplicate value_differs [1; 1; 2; 3; 3; 3; 4] = Done (out, n) ∧
    NoDup (take (Z.to_nat n) out) ∧
    (∀ x, x ∈ take (Z.to_nat n) out ↔ x ∈ [1; 1; 2; 3; 3; 3; 4]) ∧
    (∀ (k : nat) x y,
       take (Z.to_nat n) out !! k = Some x →
       take (Z.to_nat n) out !! S k = Some y → (x <? y) = true).
Proof.
  apply (Deduplicate_sorted Z.ltb value_differs [1; 1; 2; 3; 3; 3; 4]).
  - apply Zltb_StrictWeakOrder.
  - reflexivity.
  - unfold tied. intros x y _ _ [Hxy Hyx]. lia.
  - intros k x y _ _. reflexivity.
Defined.

Lemma ParallelSort_then_Deduplicate_witness :
  ∃ sorted out n,
    ParallelSort insertion_Slice Z.ltb (seqZ 0 1000 ++ seqZ 0 1000) 8 =
      Done sorted ∧
    Deduplicate value_differs sorted = Done (out, n) ∧
    NoDup (take (Z.to_nat n) out) ∧
    (∀ x, x ∈ take (Z.to_nat n) out ↔ x ∈ seqZ 0 1000 ++ seqZ 0 1000) ∧
    (∀ (k : nat) x y,
       take (Z.to_nat n) out !! k = Some x →
       take (Z.to_nat n) out !! S k = Some y → (x <? y) = true).
Proof.
  apply (ParallelSort_then_Deduplicate Z.ltb insertion_Slice value_differs
           (seqZ 0 1000 ++ seqZ 0 1000) 8).
  - apply insertion_Slice_permutes.
  - apply insertion_Slice_sorts.
  - apply Zltb_StrictWeakOrder.
  - unfold tied. intros x y _ _ [Hxy Hyx]. lia.
  - intros x y _ _. reflexivity.
Defined.

Lemma ParallelSort_then_BinarySearch_witness :
  ∃ sorted idx x,
    ParallelSort insertion_Slice Z.ltb (reverse (seqZ 0 2000)) 8 = Done sorted ∧
    BinarySearch Z.ltb sorted 2 = Done (idx, true) ∧
    sorted !! Z.to_nat idx = Some x ∧ tied Z.ltb x 2.
Proof.
  apply (ParallelSort_then_BinarySearch Z.ltb insertion_Slice
           (reverse (seqZ 0 2000)) 8 2).
  - apply insertion_Slice_permutes.
  - apply insertion_Slice_sorts.
  - apply Zltb_StrictWeakOrder.
  - rewrite elem_of_reverse, elem_of_seqZ. lia.
Defined.


(** * More on merge and on sorting by key *)

Section MergeOrder.
Context {T : Type} (less : T → T → bool).
Implicit Types (data l r : list T) (mid : Z).

Lemma merge_lists_sublist_l l r : l `sublist_of` merge_lists less l r.
Proof.
  revert r. induction l as [|x l IHl]; intros r; [apply sublist_nil_l|].
  induction r as [|y r IHr]; [by rewrite merge_lists_nil_r|].
  rewrite merge_lists_cons. destruct (less x y).
  - apply sublist_skip, IHl.
  - apply sublist_cons, IHr.
Qed.

Lemma merge_lists_sublist_r l r : r `sublist_of` merge_lists less l r.
Proof.
  revert r. induction l as [|x l IHl]; intros r; [done|].
  induction r as [|y r IHr]; [apply sublist_nil_l|].
  rewrite merge_lists_cons. destruct (less x y).
  - apply sublist_cons, IHl.
  - apply sublist_skip, IHr.
Qed.

(** The merge of two ordered runs, for a comparator that never holds both
    ways round. *)
Lemma merge_lists_in_order l r :
  (∀ a b, less a b = true → less b a = false) →
  Sorted (not_after less) l → Sorted (not_after less) r →
  Sorted (not_after less) (merge_lists less l r).
Proof.
  intros Hasym Hl. revert r.
  induction Hl as [|x l Hl IHl Hxl]; intros r Hr; [done|].
  induction Hr as [|y r Hr IHr Hyr].
  { rewrite merge_lists_nil_r. by constructor. }
  rewrite merge_lists_cons. destruct (less x y) eqn:Hxy.
  - constructor; [apply IHl; by constructor|].
    destruct Hxl as [|z l Hxz].
    + constructor. by apply Hasym.
    + rewrite merge_lists_cons. destruct (less z y); constructor; [done|].
      by apply Hasym.
  - constructor; [done|].
    destruct Hyr as [|z r Hyz].
    + rewrite merge_lists_nil_r. by constructor.
    + rewrite merge_lists_cons. destruct (less x z); by constructor.
Qed.

(** X14 (merge of ordered halves).  For a comparator that never holds both
    ways round and a split point within the slice, if [data[:mid]] and
    [data[mid:]] are each in order then after [merge] the whole slice is in
    order. *)
Theorem merge_sorted data mid :
  (∀ a b, less a b = true → less b a = false) →
  0 ≤ mid ≤ len data →
  IsSorted less (take (Z.to_nat mid) data) = true →
  IsSorted less (drop (Z.to_nat mid) data) = true →
  ∃ out, merge less data mid = Done out ∧ IsSorted less out = true.
Proof.
  intros Hasym Hmid Hlo%IsSorted_Sorted Hhi%IsSorted_Sorted.
  rewrite merge_correct by done. eexists. split; [done|].
  by apply IsSorted_Sorted, merge_lists_in_order.
Qed.

(** X15 (merge keeps each half's order).  Whatever the comparator, the
    elements of [data[:mid]] appear in the merged slice in the order they
    had, and so do the elements of [data[mid:]]: each half is a subsequence
    of the result. *)
Theorem merge_interleaves data mid :
  0 ≤ mid ≤ len data →
  ∃ out,
    merge less data mid = Done out ∧
    take (Z.to_nat mid) data `sublist_of` out ∧
    drop (Z.to_nat mid) data `sublist_of` out.
Proof.
  intros Hmid. rewrite merge_correct by done. eexists. split_and!; [done|..].
  - apply merge_lists_sublist_l.
  - apply merge_lists_sublist_r.
Qed.

(** X16 (merge with an empty half).  With a split point at or below [0],
    or at [len(data)], [merge] leaves the slice as it was. *)
Theorem merge_empty_half data mid :
  mid ≤ 0 ∨ mid = len data → merge less data mid = Done data.
Proof.
  intros [Hmid| ->].
  - unfold merge. cbn [merge_loop drain_left ms_i ms_j ms_data].
    case_bool_decide; [lia|]. cbn [andb]. exec_simpl.
    case_bool_decide; [lia|done].
  - rewrite merge_correct by (unfold len; lia).
    unfold len. rewrite Nat2Z.id, firstn_all, drop_all.
    by rewrite merge_lists_nil_r.
Qed.

End MergeOrder.

Lemma merge_sorted_witness :
  ∃ out, merge Z.ltb [1; 4; 9; 2; 3; 10] 3 = Done out ∧ IsSorted Z.ltb out = true.
Proof.
  apply (merge_sorted Z.ltb [1; 4; 9; 2; 3; 10] 3).
  - intros a b. lia.
  - unfold len. simpl. lia.
  - reflexivity.
  - reflexivity.
Defined.

Lemma merge_interleaves_witness :
  ∃ out,
    merge (λ _ _ : Z, true) [5; 6; 1; 2] 2 = Done out ∧
    take (Z.to_nat 2) [5; 6; 1; 2] `sublist_of` out ∧
    drop (Z.to_nat 2) [5; 6; 1; 2] `sublist_of` out.
Proof.
  apply (merge_interleaves (λ _ _ : Z, true) [5; 6; 1; 2] 2).
  unfold len. simpl. lia.
Defined.

Lemma merge_empty_half_witness : merge Z.ltb [2; 1] (-1) = Done [2; 1].
Proof.
  apply (merge_empty_half Z.ltb [2; 1] (-1)). left. lia.
Defined.

Section KeyFacts.
Context {T K : Type}.
Implicit Types (sort_Slice : list T → (T → T → bool) → list T).
Implicit Types (key : T → K) (lessKey : K → K → bool) (data : list T).

Lemma IsSorted_by_key key lessKey data :
  IsSorted (λ a b, lessKey (key a) (key b)) data = IsSorted lessKey (key <$> data).
Proof.
  induction data as [|x data IH]; [done|].
  destruct data as [|y data]; [done|].
  change (IsSorted lessKey (key <$> x :: y :: data))
    with (if lessKey (key y) (key x) then false
          else IsSorted lessKey (key <$> y :: data)).
  rewrite <- IH. reflexivity.
Qed.

Lemma StrictWeakOrder_by_key key lessKey :
  StrictWeakOrder lessKey → StrictWeakOrder (λ a b, lessKey (key a) (key b)).
Proof.
  intros [Hirr Htrans Hneg]. split.
  - intros a. apply Hirr.
  - intros a b c. apply Htrans.
  - intros a b c. apply Hneg.
Qed.

(** X17 (SortByKey).  For a strict weak ordering on keys, [SortByKey]
    rearranges the slice so that the keys of its elements, read off in
    slice order, are in order under [lessKey]. *)
Theorem SortByKey_sorts sort_Slice key lessKey data :
  (∀ l cmp, sort_Slice l cmp ≡ₚ l) →
  (∀ l cmp, StrictWeakOrder cmp → IsSorted cmp (sort_Slice l cmp) = true) →
  StrictWeakOrder lessKey →
  SortByKey sort_Slice data key lessKey ≡ₚ data ∧
  IsSorted lessKey (key <$> SortByKey sort_Slice data key lessKey) = true.
Proof.
  intros Hperm Hsorts Hless. unfold SortByKey. split; [apply Hperm|].
  rewrite <- IsSorted_by_key. by apply Hsorts, StrictWeakOrder_by_key.
Qed.

(** X18 (SortByKeyOrdered).  When [<] on the key type is a strict weak
    ordering, as it is on the integer and string kinds of [Ordered],
    [SortByKeyOrdered] rearranges the slice so that the keys of its
    elements are in ascending order. *)
Theorem SortByKeyOrdered_sorts `{Ordered K} sort_Slice key data :
  (∀ l cmp, sort_Slice l cmp ≡ₚ l) →
  (∀ l cmp, StrictWeakOrder cmp → IsSorted cmp (sort_Slice l cmp) = true) →
  StrictWeakOrder (ordered_lt (K := K)) →
  SortByKeyOrdered sort_Slice data key ≡ₚ data ∧
  IsSorted ordered_lt (key <$> SortByKeyOrdered sort_Slice data key) = true.
Proof.
  intros Hperm Hsorts Hless. unfold SortByKeyOrdered. split; [apply Hperm|].
  rewrite <- IsSorted_by_key. by apply Hsorts, StrictWeakOrder_by_key.
Qed.

End KeyFacts.

Lemma SortByKey_sorts_witness :
  SortByKey insertion_Slice [(3, 0); (1, 1); (2, 2)] fst Z.ltb
    ≡ₚ [(3, 0); (1, 1); (2, 2)] ∧
  IsSorted Z.ltb
    (fst <$> SortByKey insertion_Slice [(3, 0); (1, 1); (2, 2)] fst Z.ltb) = true.
Proof.
  apply (SortByKey_sorts insertion_Slice fst Z.ltb [(3, 0); (1, 1); (2, 2)]).
  - apply insertion_Slice_permutes.
  - apply insertion_Slice_sorts.
  - apply Zltb_StrictWeakOrder.
Defined.

Lemma SortByKeyOrdered_sorts_witness :
  SortByKeyOrdered insertion_Slice [(3, 0); (1, 1); (2, 2)] fst
    ≡ₚ [(3, 0); (1, 1); (2, 2)] ∧
  IsSorted ordered_lt
    (fst <$> SortByKeyOrdered insertion_Slice [(3, 0); (1, 1); (2, 2)] fst) = true.
Proof.
  apply (SortByKeyOrdered_sorts insertion_Slice fst [(3, 0); (1, 1); (2, 2)]).
  - apply insertion_Slice_permutes.
  - apply insertion_Slice_sorts.
  - apply Zltb_StrictWeakOrder.
Defined.
